(** * Options extrinsic analyzer: a shallow embedding of [src/App.jsx]

    The development follows the non-UI part of the application:
    the relay fetch ([fetchWithProxies]), the market data client
    ([fetchSpotPrice]), the expiration matcher ([findClosestExpiry]),
    the option analyzer ([daysUntilExpiry], [analyzeCallOptions]) and the
    ranker ([rankByEfficiency]).

    Conventions of the embedding.
    - A JavaScript number is an exact rational ([Q]): every finite double is
      a rational, and the operations are taken without rounding.  The two
      places where the program can leave the finite numbers are kept
      explicit: [Infinity] as the initial [minDist] is [None], and a
      division by a zero strike yields [None].
    - A value that the program inspects dynamically ([typeof], [||], [?.])
      is a [jsval]; a raw contract field on which the program does
      arithmetic is a number or absent ([option Q]).
    - [Date.now()] is the explicit argument [nowMs] (milliseconds).
    - The network is an oracle indexed by the number of requests already
      made; status callbacks, requests and sleeps are recorded in a log. *)

From Stdlib Require Import ZArith QArith Qminmax Qround Qabs.
From Stdlib Require Import List String Ascii Bool Lia Permutation Sorted.
From Stdlib Require Import DecimalString Lqa.
Import ListNotations.
Open Scope Q_scope.
Set Warnings "-register-all".

(** ** JavaScript values and built-ins *)

Module JS.

Inductive jsval : Type :=
| JUndefined
| JNull
| JBool (b : bool)
| JNum (q : Q)
| JStr (s : string)
| JArr (items : list jsval)
| JObj (fields : list (string * jsval)).

(** ToBoolean: [undefined], [null], [false], [0] and the empty string are
    falsy, everything else (arrays and objects included) is truthy. *)
Definition truthy (v : jsval) : bool :=
  match v with
  | JUndefined | JNull => false
  | JBool b => b
  | JNum q => negb (Qeq_bool q 0)
  | JStr s => negb (String.eqb s EmptyString)
  | JArr _ | JObj _ => true
  end.

(** [a || b] *)
Definition or (a b : jsval) : jsval := if truthy a then a else b.

(** [v == null] *)
Definition nullish (v : jsval) : bool :=
  match v with
  | JUndefined | JNull => true
  | _ => false
  end.

Fixpoint lookup (k : string) (fields : list (string * jsval)) : jsval :=
  match fields with
  | [] => JUndefined
  | (k', v) :: rest => if String.eqb k k' then v else lookup k rest
  end.

(** [v?.k] for a property name [k] that no prototype defines: the value of
    the own property of an object, [undefined] on anything else. *)
Definition get (k : string) (v : jsval) : jsval :=
  match v with
  | JObj fields => lookup k fields
  | _ => JUndefined
  end.

(** [v?.[0]] *)
Definition first (v : jsval) : jsval :=
  match v with
  | JArr items => nth 0 items JUndefined
  | JObj fields => lookup "0" fields
  | JStr (String c _) => JStr (String c EmptyString)
  | _ => JUndefined
  end.

(** [typeof v === "number" ? v : null] *)
Definition numberOrNull (v : jsval) : option Q :=
  match v with
  | JNum q => Some q
  | _ => None
  end.

(** [x || 0] on a field that is a number or absent. *)
Definition orZero (x : option Q) : Q :=
  match x with
  | Some q => if Qeq_bool q 0 then 0 else q
  | None => 0
  end.

(** ToNumber of a number-or-null: [null] converts to [0]. *)
Definition toNumber (x : option Q) : Q :=
  match x with
  | Some q => q
  | None => 0
  end.

Definition Qltb (x y : Q) : bool := negb (Qle_bool y x).

(** The index [Array.prototype.slice] computes from a relative one. *)
Definition relIndex (len i : Z) : Z :=
  if (i <? 0)%Z then Z.max (len + i) 0 else Z.min i len.

(** [l.slice(s, e)] *)
Definition slice {A : Type} (l : list A) (s e : Z) : list A :=
  let len := Z.of_nat (List.length l) in
  let k := relIndex len s in
  let f := relIndex len e in
  firstn (Z.to_nat (f - k)) (skipn (Z.to_nat k) l).

(** [Array.prototype.sort(cmp)] is stable: [a] is placed before [b] when
    [cmp a b < 0], after it when [cmp a b > 0], and equal elements keep
    their order.  Stable insertion gives exactly that for a consistent
    comparator. *)
Fixpoint insert {A : Type} (cmp : A -> A -> Q) (x : A) (l : list A) : list A :=
  match l with
  | [] => [x]
  | y :: ys => if Qle_bool (cmp x y) 0 then x :: y :: ys else y :: insert cmp x ys
  end.

Fixpoint sort {A : Type} (cmp : A -> A -> Q) (l : list A) : list A :=
  match l with
  | [] => []
  | x :: xs => insert cmp x (sort cmp xs)
  end.

(** [l.map((o, i) => f o i)] with the index starting at [i0]. *)
Fixpoint mapiFrom {A B : Type} (f : A -> nat -> B) (i0 : nat) (l : list A) : list B :=
  match l with
  | [] => []
  | x :: xs => f x i0 :: mapiFrom f (S i0) xs
  end.

Definition mapi {A B : Type} (f : A -> nat -> B) (l : list A) : list B :=
  mapiFrom f 0 l.

(** Template-literal printing of an integer. *)
Definition showNat (n : nat) : string := NilEmpty.string_of_uint (Nat.to_uint n).
Definition showZ (z : Z) : string := NilZero.string_of_int (Z.to_int z).

End JS.

Import JS.

(** ** Option analysis *)

(** One call contract as the feed reports it. *)
Module Raw.
Record RawOptionContract : Type := {
  strike : Q;
  bid : option Q;
  ask : option Q;
  lastPrice : option Q;
  volume : option Q;
  openInterest : option Q;
  impliedVolatility : jsval;
  delta : jsval;
  gamma : jsval;
  theta : jsval;
  vega : jsval;
  rho : jsval;
  inTheMoney : option bool;
  contractSymbol : option string
}.
End Raw.

Inductive Moneyness : Type := ATM | ITM | OTM.

(** The object [analyzeCallOptions] returns for each selected contract. *)
Module Opt.
Record AnalyzedOption : Type := {
  strike : Q;
  mid : Q;
  bid : Q;
  ask : Q;
  last : Q;
  volume : Q;
  openInterest : Q;
  impliedVol : jsval;
  intrinsic : Q;
  extrinsic : Q;
  extrinsicPerDTE : Q;
  efficiencyScore : option Q;
  fallbackScore : Q;
  annualizedYield : option Q;
  delta : option Q;
  gamma : option Q;
  theta : option Q;
  vega : option Q;
  rho : option Q;
  dte : Z;
  moneyness : Moneyness;
  inTheMoney : bool;
  contractSymbol : string
}.
End Opt.

Definition RawOptionContract := Raw.RawOptionContract.
Definition AnalyzedOption := Opt.AnalyzedOption.

(** [Math.max(1, Math.ceil((expiryTs - Date.now() / 1000) / 86400))] *)
Definition daysUntilExpiry (expiryTs nowMs : Z) : Z :=
  Z.max 1 (Qceiling ((inject_Z expiryTs - inject_Z nowMs / 1000) / 86400)).

Definition tsToDTE (ts nowMs : Z) : Z :=
  Z.max 1 (Qceiling ((inject_Z ts - inject_Z nowMs / 1000) / 86400)).

(** [[...calls].sort((a, b) => a.strike - b.strike)] *)
Definition sortByStrike (calls : list RawOptionContract) : list RawOptionContract :=
  JS.sort (fun a b => Raw.strike a - Raw.strike b) calls.

(** [dist < minDist], where [minDist] starts as [Infinity] ([None]). *)
Definition ltMinDist (dist : Q) (minDist : option Q) : bool :=
  match minDist with
  | None => true
  | Some m => Qltb dist m
  end.

(** The body of the [forEach] that looks for the at-the-money strike; the
    state is the pair [(atmIdx, minDist)]. *)
Definition atmStep (spotPrice : Q) (st : nat * option Q) (ci : RawOptionContract * nat)
  : nat * option Q :=
  let dist := Qabs (Raw.strike (fst ci) - spotPrice) in
  if ltMinDist dist (snd st) then (snd ci, Some dist) else st.

Definition findATM (spotPrice : Q) (sorted : list RawOptionContract) : nat * option Q :=
  fold_left (atmStep spotPrice)
            (combine sorted (seq 0 (List.length sorted))) (0%nat, None).

Definition atmIndex (spotPrice : Q) (sorted : list RawOptionContract) : nat :=
  fst (findATM spotPrice sorted).

(** The strike increment read next to the at-the-money strike. *)
Definition strikeIncrement (sorted : list RawOptionContract) (atmIdx : nat) : Q :=
  if (1 <? List.length sorted)%nat then
    let nearby := JS.slice sorted
                    (Z.max 0 (Z.of_nat atmIdx - 1))
                    (Z.min (Z.of_nat (List.length sorted)) (Z.of_nat atmIdx + 2)) in
    match nearby with
    | n0 :: n1 :: _ => Raw.strike n1 - Raw.strike n0
    | _ => 1
    end
  else 1.

Definition startIdx (atmIdx : nat) (numStrikes : Z) : Z :=
  Z.max 0 (Z.of_nat atmIdx - numStrikes).

Definition endIdx (len atmIdx : nat) (numStrikes : Z) : Z :=
  Z.min (Z.of_nat len) (Z.of_nat atmIdx + numStrikes + 1).

Definition selectWindow (sorted : list RawOptionContract) (atmIdx : nat) (numStrikes : Z)
  : list RawOptionContract :=
  JS.slice sorted (startIdx atmIdx numStrikes)
                  (endIdx (List.length sorted) atmIdx numStrikes).

(** [(bid > 0 && ask > 0) ? (bid + ask) / 2 : c.lastPrice || 0] *)
Definition midPrice (c : RawOptionContract) : Q :=
  let bid := JS.orZero (Raw.bid c) in
  let ask := JS.orZero (Raw.ask c) in
  if Qltb 0 bid && Qltb 0 ask then (bid + ask) / 2 else JS.orZero (Raw.lastPrice c).

(** The arrow function mapped over the selected contracts. *)
Definition analyzeOne (spotPrice : Q) (dte : Z) (increment : Q) (c : RawOptionContract)
  : AnalyzedOption :=
  let strike := Raw.strike c in
  let bid := JS.orZero (Raw.bid c) in
  let ask := JS.orZero (Raw.ask c) in
  let mid := midPrice c in
  let last := JS.orZero (Raw.lastPrice c) in
  let volume := JS.orZero (Raw.volume c) in
  let openInterest := JS.orZero (Raw.openInterest c) in
  let impliedVol := JS.or (Raw.impliedVolatility c) (JNum 0) in
  let intrinsic := Qmax 0 (spotPrice - strike) in
  let extrinsic := Qmax 0 (mid - intrinsic) in
  let delta := JS.numberOrNull (Raw.delta c) in
  let gamma := JS.numberOrNull (Raw.gamma c) in
  let theta := JS.numberOrNull (Raw.theta c) in
  let vega := JS.numberOrNull (Raw.vega c) in
  let rho := JS.numberOrNull (Raw.rho c) in
  let extrinsicPerDTE := extrinsic / inject_Z dte in
  let absDelta := option_map Qabs delta in
  let efficiencyScore :=
    match absDelta with
    | Some a => if Qltb (1 # 100) a then Some (extrinsicPerDTE / a) else None
    | None => None
    end in
  let fallbackScore := extrinsicPerDTE in
  let annualizedYield :=
    if Qeq_bool strike 0 then None
    else Some ((extrinsic / strike) * (365 / inject_Z dte) * 100) in
  let isITM := Qltb strike spotPrice in
  let isATM := Qle_bool (Qabs (strike - spotPrice)) (increment * (6 # 10)) in
  let moneyness := if isATM then ATM else if isITM then ITM else OTM in
  {| Opt.strike := strike; Opt.mid := mid; Opt.bid := bid; Opt.ask := ask;
     Opt.last := last; Opt.volume := volume; Opt.openInterest := openInterest;
     Opt.impliedVol := impliedVol;
     Opt.intrinsic := intrinsic; Opt.extrinsic := extrinsic;
     Opt.extrinsicPerDTE := extrinsicPerDTE;
     Opt.efficiencyScore := efficiencyScore; Opt.fallbackScore := fallbackScore;
     Opt.annualizedYield := annualizedYield;
     Opt.delta := delta; Opt.gamma := gamma; Opt.theta := theta;
     Opt.vega := vega; Opt.rho := rho;
     Opt.dte := dte; Opt.moneyness := moneyness;
     Opt.inTheMoney := match Raw.inTheMoney c with Some b => b | None => false end;
     Opt.contractSymbol :=
       match Raw.contractSymbol c with Some s => s | None => EmptyString end |}.

Definition analyzeCallOptions (calls : list RawOptionContract) (spotPrice : Q)
    (expiryTs : Z) (numStrikes : Z) (nowMs : Z) : list AnalyzedOption :=
  let dte := daysUntilExpiry expiryTs nowMs in
  let sorted := sortByStrike calls in
  let atmIdx := atmIndex spotPrice sorted in
  let increment := strikeIncrement sorted atmIdx in
  let selected := selectWindow sorted atmIdx numStrikes in
  map (analyzeOne spotPrice dte increment) selected.

(** ** Ranking *)

(** [{ ...o, rank }] *)
Record RankedOption : Type := {
  contract : AnalyzedOption;
  rank : nat
}.

Definition hasScore (o : AnalyzedOption) : bool :=
  match Opt.efficiencyScore o with Some _ => true | None => false end.

(** [o.extrinsic > 0.01] *)
Definition isRankable (o : AnalyzedOption) : bool :=
  Qltb (1 # 100) (Opt.extrinsic o).

(** [o.efficiencyScore != null && o.efficiencyScore > 0] *)
Definition isScored (o : AnalyzedOption) : bool :=
  match Opt.efficiencyScore o with
  | Some e => Qltb 0 e
  | None => false
  end.

(** [o.efficiencyScore == null || o.efficiencyScore <= 0] *)
Definition isUnscored (o : AnalyzedOption) : bool :=
  match Opt.efficiencyScore o with
  | Some e => Qle_bool e 0
  | None => true
  end.

(** [(a, b) => b.efficiencyScore - a.efficiencyScore] *)
Definition byEfficiencyDesc (a b : AnalyzedOption) : Q :=
  JS.toNumber (Opt.efficiencyScore b) - JS.toNumber (Opt.efficiencyScore a).

(** [(a, b) => b.fallbackScore - a.fallbackScore] *)
Definition byFallbackDesc (a b : AnalyzedOption) : Q :=
  Opt.fallbackScore b - Opt.fallbackScore a.

(** [.map((o, i) => ({ ...o, rank: i + 1 }))] *)
Definition assignRanks (l : list AnalyzedOption) : list RankedOption :=
  JS.mapi (fun o i => {| contract := o; rank := (i + 1)%nat |}) l.

Definition rankByEfficiency (options : list AnalyzedOption) : list RankedOption :=
  let hasGreeks := existsb hasScore options in
  let rankable := filter isRankable options in
  if hasGreeks then
    let withGreeks := filter isScored rankable in
    let noGreeks := filter isUnscored rankable in
    let withGreeks := JS.sort byEfficiencyDesc withGreeks in
    let noGreeks := JS.sort byFallbackDesc noGreeks in
    assignRanks (withGreeks ++ noGreeks)
  else
    let rankable := JS.sort byFallbackDesc rankable in
    assignRanks rankable.

(** The ranker with its mode chosen by the rankable contracts only; an
    intermediate form between the code and [rankBySpec]. *)
Definition rankSpec (analyzed : list AnalyzedOption) : list RankedOption :=
  let rankable := filter isRankable analyzed in
  if existsb hasScore rankable then
    assignRanks (JS.sort byEfficiencyDesc (filter isScored rankable)
                 ++ JS.sort byFallbackDesc (filter isUnscored rankable))
  else
    assignRanks (JS.sort byFallbackDesc rankable).

(** ** Expiration matching *)

(** [Math.abs(ts - target)]; a target that is not a number ([None]) makes
    the distance [NaN]. *)
Definition distTo (target : option Q) (ts : Z) : option Q :=
  match target with
  | Some t => Some (Qabs (inject_Z ts - t))
  | None => None
  end.

(** [a < b] on numbers that may be [NaN]. *)
Definition ltNaN (a b : option Q) : bool :=
  match a, b with
  | Some x, Some y => Qltb x y
  | _, _ => false
  end.

(** The reducer [(best, ts) => |ts - target| < |best - target| ? ts : best]. *)
Definition closerStep (target : option Q) (best ts : Z) : Z :=
  if ltNaN (distTo target ts) (distTo target best) then ts else best.

Section ExpirationMatcher.

(** [new Date(s).getTime()]: the local-time reading of a date-time string
    in milliseconds, [None] for an invalid date. *)
Variable Date_getTime : string -> option Z.

(** [new Date(targetDateStr + "T16:00:00").getTime() / 1000] *)
Definition targetOf (targetDateStr : string) : option Q :=
  option_map (fun ms => inject_Z ms / 1000)
             (Date_getTime (targetDateStr ++ "T16:00:00")).

(** [available.reduce(step, available[0])]; on an empty array the initial
    value [available[0]] is [undefined] and is what [reduce] returns. *)
Definition findClosestExpiry (available : list Z) (targetDateStr : string) : option Z :=
  match available with
  | [] => None
  | a0 :: _ => Some (fold_left (closerStep (targetOf targetDateStr)) available a0)
  end.

End ExpirationMatcher.

(** ** Relay fetch and market data client *)

(** What one [fetch] does: it rejects (transport error, timeout, or the
    body cannot be read), or it answers with a status and a body. *)
Inductive response : Type :=
| Rejected (message : string)
| Answered (ok : bool) (text : string).

Inductive event : Type :=
| Status (msg : string)
| Request (url : string)
| Sleep (ms : nat).

Record netState : Type := {
  requests : nat;
  log : list event
}.

(** A promise settles: it resolves with a value or rejects with an
    [Error] carrying a message. *)
Inductive outcome (A : Type) : Type :=
| Returned (a : A)
| Thrown (message : string).
Arguments Returned {A} a.
Arguments Thrown {A} message.

Inductive attemptResult : Type :=
| Parsed (data : jsval)
| SoftFail (err : option string).

Record SpotQuote : Type := {
  price : jsval;
  name : jsval
}.

Definition record (e : event) (st : netState) : netState :=
  {| requests := requests st; log := log st ++ [e] |}.

(** [lastErr?.message || "All proxies failed"] *)
Definition lastMessage (lastErr : option string) : string :=
  match lastErr with
  | Some m => if String.eqb m EmptyString then "All proxies failed" else m
  | None => "All proxies failed"
  end.

(** [closes.filter(c => c != null)] followed by [valid[valid.length - 1]]. *)
Definition validCloses (items : list jsval) : list jsval :=
  filter (fun c => negb (JS.nullish c)) items.

Section Network.

Variable encodeURIComponent : string -> string.
Variable JSON_parse : string -> option jsval.
(** The answer to the [n]-th request of the run, sent to the given URL. *)
Variable network : nat -> string -> response.

Definition proxyBuilders : list (string -> string) :=
  [ (fun u => "https://corsproxy.io/?" ++ encodeURIComponent u);
    (fun u => "https://api.allorigins.win/raw?url=" ++ encodeURIComponent u);
    (fun u => "https://api.codetabs.com/v1/proxy?quest=" ++ encodeURIComponent u);
    (fun u => "https://thingproxy.freeboard.io/fetch/" ++ u);
    (fun u => u) ]%string.

Definition proxyUrl (url : string) (attempt p : nat) : string :=
  nth ((attempt + p) mod List.length proxyBuilders) proxyBuilders (fun u => u) url.

Definition statusLine (label : string) (attempt p : nat) : string :=
  (label ++ " (attempt " ++ JS.showNat (attempt + 1) ++ ", proxy "
         ++ JS.showNat (p + 1) ++ "/" ++ JS.showNat (List.length proxyBuilders) ++ ")")%string.

(** The body of the inner [for]: one request through one relay.  The
    status callback is the program's [setProgress], which returns without
    throwing; [onStatus] tells whether one was passed, and a call of it is
    a [Status] line in the log. *)
Definition tryProxy (url : string) (onStatus : bool) (label : string)
    (attempt p : nat) (st : netState) : attemptResult * netState :=
  let target := proxyUrl url attempt p in
  let st1 := if onStatus then record (Status (statusLine label attempt p)) st else st in
  let resp := network (requests st1) target in
  let st2 := {| requests := S (requests st1); log := log st1 ++ [Request target] |} in
  match resp with
  | Rejected m => (SoftFail (Some m), st2)
  | Answered ok text =>
      if negb ok then (SoftFail None, st2)
      else if String.eqb text EmptyString || (String.length text <? 30)%nat
      then (SoftFail None, st2)
      else match JSON_parse text with
           | None => (SoftFail None, st2)
           | Some data => (Parsed data, st2)
           end
  end.

(** The inner [for (p = 0; p < proxyBuilders.length; p++)], over the
    values of [p] still to run. *)
Fixpoint proxyLoop (url : string) (onStatus : bool) (label : string) (attempt : nat)
    (ps : list nat) (lastErr : option string) (st : netState)
  : option jsval * option string * netState :=
  match ps with
  | [] => (None, lastErr, st)
  | p :: ps' =>
      match tryProxy url onStatus label attempt p st with
      | (Parsed data, st') => (Some data, lastErr, st')
      | (SoftFail (Some m), st') => proxyLoop url onStatus label attempt ps' (Some m) st'
      | (SoftFail None, st') => proxyLoop url onStatus label attempt ps' lastErr st'
      end
  end.

(** The outer [for (attempt = 0; attempt < maxAttempts; attempt++)], over
    the rounds still to run, and the final [throw]. *)
Fixpoint attemptLoop (url : string) (onStatus : bool) (label : string) (maxAttempts : nat)
    (attempts : list nat) (lastErr : option string) (st : netState)
  : outcome jsval * netState :=
  match attempts with
  | [] => (Thrown (label ++ " failed: " ++ lastMessage lastErr)%string, st)
  | attempt :: rest =>
      match proxyLoop url onStatus label attempt
                      (seq 0 (List.length proxyBuilders)) lastErr st with
      | (Some data, _, st') => (Returned data, st')
      | (None, lastErr', st') =>
          let st'' := if (attempt <? maxAttempts - 1)%nat
                      then record (Sleep (1500 * (attempt + 1))) st' else st' in
          attemptLoop url onStatus label maxAttempts rest lastErr' st''
      end
  end.

Definition fetchWithProxies (url : string) (onStatus : bool) (label : string)
    (maxAttempts : nat) (st : netState) : outcome jsval * netState :=
  attemptLoop url onStatus label maxAttempts (seq 0 maxAttempts) None st.

(** [data?.chart?.result?.[0]] *)
Definition chartResult (data : jsval) : jsval :=
  JS.first (JS.get "result" (JS.get "chart" data)).

(** [meta?.regularMarketPrice] *)
Definition metaPrice (result : jsval) : jsval :=
  JS.get "regularMarketPrice" (JS.get "meta" result).

(** [result.indicators?.adjclose?.[0]?.adjclose || result.indicators?.quote?.[0]?.close] *)
Definition closesOf (result : jsval) : jsval :=
  JS.or (JS.get "adjclose" (JS.first (JS.get "adjclose" (JS.get "indicators" result))))
        (JS.get "close" (JS.first (JS.get "quote" (JS.get "indicators" result)))).

(** The part of [fetchSpotPrice] after the response arrived. *)
Definition spotOfData (ticker : string) (data : jsval) : outcome SpotQuote :=
  let result := chartResult data in
  if negb (JS.truthy result) then Thrown ("No data returned for " ++ ticker)%string
  else
    let meta := JS.get "meta" result in
    let price := metaPrice result in
    if JS.truthy price then
      Returned {| price := price;
                  name := JS.or (JS.get "shortName" meta)
                                (JS.or (JS.get "symbol" meta) (JStr ticker)) |}
    else
      let closes := closesOf result in
      let giveUp := Thrown ("Could not extract price for " ++ ticker)%string in
      if JS.truthy closes then
        match closes with
        | JArr items =>
            let valid := validCloses items in
            if (0 <? List.length valid)%nat
            then Returned {| price := List.last valid JUndefined; name := JStr ticker |}
            else giveUp
        | _ => Thrown "closes.filter is not a function"
        end
      else giveUp.

Definition spotUrl (ticker : string) (nowMs : Z) : string :=
  let now := (nowMs / 1000)%Z in
  ("https://query1.finance.yahoo.com/v8/finance/chart/" ++ encodeURIComponent ticker
   ++ "?period1=" ++ JS.showZ (now - 5 * 86400)%Z
   ++ "&period2=" ++ JS.showZ now ++ "&interval=1d")%string.

Definition fetchSpotPrice (ticker : string) (onStatus : bool) (nowMs : Z)
    (st : netState) : outcome SpotQuote * netState :=
  match fetchWithProxies (spotUrl ticker nowMs) onStatus
                         ("Fetching " ++ ticker ++ " spot price")%string 3 st with
  | (Thrown m, st') => (Thrown m, st')
  | (Returned data, st') => (spotOfData ticker data, st')
  end.

End Network.

(** ** Specification-side definitions *)

(** [bid > 0] on a field that may be absent. *)
Definition positive (x : option Q) : bool :=
  match x with
  | Some q => Qltb 0 q
  | None => false
  end.

(** The mid price in the specification's words: the average of bid and
    ask when both are positive, else the last price when present, else 0. *)
Definition midSpec (c : RawOptionContract) : Q :=
  if positive (Raw.bid c) && positive (Raw.ask c)
  then (JS.toNumber (Raw.bid c) + JS.toNumber (Raw.ask c)) / 2
  else match Raw.lastPrice c with
       | Some p => p
       | None => 0
       end.

(** A Greek is passed through when the feed's value is a number, and is
    null otherwise. *)
Definition passThrough (src : jsval) (dst : option Q) : Prop :=
  match src with
  | JNum q => dst = Some q
  | _ => dst = None
  end.

(** The same rule for a field kept as a JavaScript value: the number as
    it is, [null] for anything else. *)
Definition passThroughOrNull (src dst : jsval) : Prop :=
  match src with
  | JNum q => dst = JNum q
  | _ => dst = JNull
  end.

(** What the analyzer does with the implied volatility: the feed's value
    when it is truthy, the number [0] otherwise. *)
Definition defaultedToZero (src dst : jsval) : Prop :=
  if JS.truthy src then dst = src else dst = JNum 0.

(** The order a comparator induces: [a] may stand before [b]. *)
Definition before {A : Type} (cmp : A -> A -> Q) (a b : A) : Prop := cmp a b <= 0.

(** The distance the [forEach] minimises. *)
Definition strikeDist (spotPrice : Q) (c : RawOptionContract) : Q :=
  Qabs (Raw.strike c - spotPrice).

(** What the loop state [(atmIdx, minDist)] satisfies after the contracts
    of [l] have been visited. *)
Definition atmInv (spotPrice : Q) (l : list RawOptionContract) (st : nat * option Q) : Prop :=
  (l = [] /\ st = (0%nat, None))
  \/ (exists ca, nth_error l (fst st) = Some ca
                 /\ snd st = Some (strikeDist spotPrice ca)
                 /\ forall j c, nth_error l j = Some c ->
                      strikeDist spotPrice ca <= strikeDist spotPrice c
                      /\ ((j < fst st)%nat ->
                          strikeDist spotPrice ca < strikeDist spotPrice c)).

(** The window in the specification's words: from [h] strikes below the
    at-the-money index through [h] strikes above it, clipped to the array. *)
Definition windowSpec (sorted : list RawOptionContract) (atmIdx h : nat)
  : list RawOptionContract :=
  firstn (Nat.min (List.length sorted) (atmIdx + h + 1) - (atmIdx - h))
         (skipn (atmIdx - h) sorted).

(** Distance of a timestamp to the target, in seconds. *)
Definition expiryDist (t : Q) (ts : Z) : Q := Qabs (inject_Z ts - t).

Section RelaySpec.

Variable encodeURIComponent : string -> string.
Variable JSON_parse : string -> option jsval.
Variable network : nat -> string -> response.
Variable url : string.

(** The soft failures of one attempt. *)
Inductive softFail : response -> Prop :=
| soft_transport (message : string) : softFail (Rejected message)
| soft_status (text : string) : softFail (Answered false text)
| soft_short (ok : bool) (text : string) :
    (String.length text < 30)%nat -> softFail (Answered ok text)
| soft_json (ok : bool) (text : string) :
    JSON_parse text = None -> softFail (Answered ok text).

(** A successful attempt: success status, a body of at least 30
    characters, and the body parses to [data]. *)
Definition succeedsWith (data : jsval) (r : response) : Prop :=
  exists text, r = Answered true text
               /\ (30 <= String.length text)%nat
               /\ JSON_parse text = Some data.

(** The response to the [i]-th request of one call that starts in state
    [st]: round [i / 5], relay position [i mod 5]. *)
Definition answerAt (st : netState) (i : nat) : response :=
  network (requests st + i) (proxyUrl encodeURIComponent url (i / 5) (i mod 5)).

(** The response to the [i]-th request of the rounds [a0], [a0 + 1], ... *)
Definition answerFrom (a0 : nat) (st : netState) (i : nat) : response :=
  network (requests st + i) (proxyUrl encodeURIComponent url (a0 + i / 5) (i mod 5)).

End RelaySpec.

(** The last element of a close series that is neither [null] nor
    [undefined], if there is one. *)
Fixpoint lastNonNull (items : list jsval) : option jsval :=
  match items with
  | [] => None
  | x :: rest =>
      match lastNonNull rest with
      | Some v => Some v
      | None => if JS.nullish x then None else Some x
      end
  end.

(** The fallback price a close series offers; a value that is not an
    array offers none. *)
Definition lastClose (closes : jsval) : option jsval :=
  match closes with
  | JArr items => lastNonNull items
  | _ => None
  end.

(** ** The ranking rule of the specification *)

(** The rule of the specification, written on the fields of the analyzed
    contracts alone: none of the definitions below uses a definition that
    embeds the ranker's code. *)

(** Rankable: extrinsic > 0.01. *)
Definition specRankable (o : AnalyzedOption) : bool :=
  JS.Qltb (1 # 100) (Opt.extrinsic o).

(** Has a non-null efficiency score. *)
Definition specHasScore (o : AnalyzedOption) : bool :=
  match Opt.efficiencyScore o with Some _ => true | None => false end.

(** Scored: efficiency score present and > 0. *)
Definition specScored (o : AnalyzedOption) : bool :=
  match Opt.efficiencyScore o with Some e => JS.Qltb 0 e | None => false end.

(** Unscored: efficiency score null or <= 0. *)
Definition specUnscored (o : AnalyzedOption) : bool :=
  match Opt.efficiencyScore o with Some e => Qle_bool e 0 | None => true end.

(** The efficiency score as a sort key; a missing score counts as 0. *)
Definition specScore (o : AnalyzedOption) : Q :=
  match Opt.efficiencyScore o with Some e => e | None => 0 end.

(** Stable sort, descending by [key]: an element goes before the first
    element whose key is not larger than its own. *)
Fixpoint insertDescBy (key : AnalyzedOption -> Q) (x : AnalyzedOption)
    (l : list AnalyzedOption) : list AnalyzedOption :=
  match l with
  | [] => [x]
  | y :: ys => if Qle_bool (key y) (key x) then x :: y :: ys
               else y :: insertDescBy key x ys
  end.

Fixpoint sortDescBy (key : AnalyzedOption -> Q) (l : list AnalyzedOption)
  : list AnalyzedOption :=
  match l with
  | [] => []
  | x :: xs => insertDescBy key x (sortDescBy key xs)
  end.

(** Ranks [i], [i + 1], ... in list order. *)
Fixpoint numberFrom (i : nat) (l : list AnalyzedOption) : list RankedOption :=
  match l with
  | [] => []
  | o :: rest => {| contract := o; rank := i |} :: numberFrom (S i) rest
  end.

Definition rankBySpec (analyzed : list AnalyzedOption) : list RankedOption :=
  let rankable := filter specRankable analyzed in
  if existsb specHasScore rankable then
    numberFrom 1 (sortDescBy specScore (filter specScored rankable)
                  ++ sortDescBy Opt.fallbackScore (filter specUnscored rankable))
  else
    numberFrom 1 (sortDescBy Opt.fallbackScore rankable).

(** ** Sample data: the scenarios of the specification *)

(** The specification's scenario: spot 150, strike 160, bid 2.40, ask 2.60. *)
Definition call160 : RawOptionContract :=
  {| Raw.strike := 160; Raw.bid := Some (240 # 100); Raw.ask := Some (260 # 100);
     Raw.lastPrice := Some (255 # 100); Raw.volume := Some 12; Raw.openInterest := None;
     Raw.impliedVolatility := JUndefined;
     Raw.delta := JNum (35 # 100); Raw.gamma := JUndefined; Raw.theta := JNull;
     Raw.vega := JStr "n/a"%string; Raw.rho := JUndefined;
     Raw.inTheMoney := Some false; Raw.contractSymbol := Some "AAPL240119C00160000"%string |}.

Definition callAt (k : Q) : RawOptionContract :=
  {| Raw.strike := k; Raw.bid := Some 1; Raw.ask := Some 2;
     Raw.lastPrice := None; Raw.volume := None; Raw.openInterest := None;
     Raw.impliedVolatility := JNum (3 # 10);
     Raw.delta := JUndefined; Raw.gamma := JUndefined; Raw.theta := JUndefined;
     Raw.vega := JUndefined; Raw.rho := JUndefined;
     Raw.inTheMoney := None; Raw.contractSymbol := None |}.

(** An analyzed contract with the fields the ranker reads. *)
Definition analyzedWith (strike extrinsic : Q) (score : option Q) (fallback : Q)
  : AnalyzedOption :=
  {| Opt.strike := strike; Opt.mid := extrinsic; Opt.bid := 0; Opt.ask := 0;
     Opt.last := extrinsic; Opt.volume := 0; Opt.openInterest := 0;
     Opt.impliedVol := JNum 0;
     Opt.intrinsic := 0; Opt.extrinsic := extrinsic; Opt.extrinsicPerDTE := fallback;
     Opt.efficiencyScore := score; Opt.fallbackScore := fallback;
     Opt.annualizedYield := None;
     Opt.delta := None; Opt.gamma := None; Opt.theta := None;
     Opt.vega := None; Opt.rho := None;
     Opt.dte := 7; Opt.moneyness := OTM; Opt.inTheMoney := false;
     Opt.contractSymbol := EmptyString |}.

(** A body of 36 characters, enough to pass the length test. *)
Definition sampleBody : string := "{price: 187.44, name: AAPL, ok: yes}".

(** A relay sequence that rejects, answers with an error status, answers
    with a short body, and then succeeds. *)
Definition flakyNetwork (n : nat) (target : string) : response :=
  match n with
  | 0%nat => Rejected "timeout"
  | 1%nat => Answered false sampleBody
  | 2%nat => Answered true "short"
  | _ => Answered true sampleBody
  end.

(** A chart response whose metadata price is 0 and whose close series
    ends with a null. *)
Definition zeroMetaChart : jsval :=
  JObj [("chart"%string,
         JObj [("result"%string,
                JArr [JObj [("meta"%string,
                             JObj [("regularMarketPrice"%string, JNum 0);
                                   ("symbol"%string, JStr "AAPL")]);
                            ("indicators"%string,
                             JObj [("quote"%string,
                                    JArr [JObj [("close"%string,
                                                 JArr [JNum 186; JNull;
                                                       JNum (18744 # 100); JNull])]])])]])])].

(** ** The rest of the data path: option chain, strike window, Fridays *)

(** The object [fetchOptionChain] resolves with. *)
Record OptionChain : Type := {
  expirationDates : jsval;
  calls : jsval;
  puts : jsval;
  quote : jsval
}.

(** [data?.optionChain?.result?.[0]] *)
Definition chainResult (data : jsval) : jsval :=
  JS.first (JS.get "result" (JS.get "optionChain" data)).

(** The part of [fetchOptionChain] after the response arrived. *)
Definition chainOfData (ticker : string) (data : jsval) : outcome OptionChain :=
  let oc := chainResult data in
  if negb (JS.truthy oc) then Thrown ("No options data for " ++ ticker)%string
  else
    Returned
      {| expirationDates := JS.or (JS.get "expirationDates" oc) (JArr []);
         calls := JS.or (JS.get "calls" (JS.first (JS.get "options" oc))) (JArr []);
         puts := JS.or (JS.get "puts" (JS.first (JS.get "options" oc))) (JArr []);
         quote := JS.or (JS.get "quote" oc) (JObj []) |}.

Section OptionChainFetch.

Variable encodeURIComponent : string -> string.
Variable JSON_parse : string -> option jsval.
Variable network : nat -> string -> response.

(** The request URL; [expiryTimestamp] is [null] ([None]) or a number, and
    [if (expiryTimestamp)] lets only a non-zero number through. *)
Definition chainUrl (ticker : string) (expiryTimestamp : option Z) : string :=
  let url :=
    ("https://query1.finance.yahoo.com/v7/finance/options/" ++ encodeURIComponent ticker)%string in
  match expiryTimestamp with
  | Some ts => if (ts =? 0)%Z then url else (url ++ "?date=" ++ JS.showZ ts)%string
  | None => url
  end.

Definition fetchOptionChain (ticker : string) (expiryTimestamp : option Z)
    (onStatus : bool) (st : netState) : outcome OptionChain * netState :=
  match fetchWithProxies encodeURIComponent JSON_parse network
                         (chainUrl ticker expiryTimestamp) onStatus
                         ("Fetching " ++ ticker ++ " options chain")%string 3 st with
  | (Thrown m, st') => (Thrown m, st')
  | (Returned data, st') => (chainOfData ticker data, st')
  end.

End OptionChainFetch.

(** [Math.min(20, Math.max(3, parseInt(numStrikes) || 10))], given what
    [parseInt] made of the text field: an integer, or [NaN] ([None]). *)
Definition nStrikes (parsed : option Z) : Z :=
  Z.min 20 (Z.max 3 (match parsed with
                     | Some n => if (n =? 0)%Z then 10 else n
                     | None => 10
                     end)).

(** A [Date] set to local midnight is the number of its calendar day,
    counted from 1 January 1970; [setDate(getDate() + k)] moves it by [k]
    days.  [getDay] is the weekday, Sunday being 0: day 0 was a Thursday. *)
Definition getDay (day : Z) : Z := ((day + 4) mod 7)%Z.

(** [(5 - d.getDay() + 7) % 7 || 7] *)
Definition fridayDiff (day : Z) : Z :=
  let diff := ((5 - getDay day + 7) mod 7)%Z in
  if (diff =? 0)%Z then 7%Z else diff.

(** The [for] loop that pushes [count] dates a week apart, starting at [d]. *)
Fixpoint pushFridays (count : nat) (d : Z) : list Z :=
  match count with
  | O => []
  | S n => d :: pushFridays n (d + 7)%Z
  end.

Definition getNextFridays (count : nat) (today : Z) : list Z :=
  pushFridays count (today + fridayDiff today)%Z.

(** A point of the delta-versus-extrinsic scatter plot. *)
Record ScatterPoint : Type := {
  pointDelta : Q;
  pointExtrinsicPerDTE : Q;
  pointStrike : Q;
  pointMoneyness : Moneyness
}.

(** [o.delta != null && Math.abs(o.delta) > 0.01 && Math.abs(o.delta) < 0.99] *)
Definition plottable (o : AnalyzedOption) : bool :=
  match Opt.delta o with
  | Some d => Qltb (1 # 100) (Qabs d) && Qltb (Qabs d) (99 # 100)
  | None => false
  end.

(** [optionChain?.filter(...).map(...) || []]; the state [optionChain] is
    [null] ([None]) until an analysis has run. *)
Definition deltaVsExtrinsic (optionChain : option (list AnalyzedOption)) : list ScatterPoint :=
  match optionChain with
  | Some chain =>
      map (fun o => {| pointDelta := Qabs (JS.toNumber (Opt.delta o));
                       pointExtrinsicPerDTE := Opt.extrinsicPerDTE o;
                       pointStrike := Opt.strike o;
                       pointMoneyness := Opt.moneyness o |})
          (filter plottable chain)
  | None => []
  end.

(** The order of the ranked list: a scored contract stands before an
    unscored one, scored contracts are in descending efficiency score,
    unscored ones in descending fallback score. *)
Definition rankOrder (a b : AnalyzedOption) : Prop :=
  (isScored a = true /\ isScored b = false)
  \/ (isScored a = true /\ isScored b = true
      /\ JS.toNumber (Opt.efficiencyScore b) <= JS.toNumber (Opt.efficiencyScore a))
  \/ (isScored a = false /\ isScored b = false
      /\ Opt.fallbackScore b <= Opt.fallbackScore a).

(** ** What a relay fetch leaves behind *)

Definition isStatus (e : event) : bool :=
  match e with Status _ => true | _ => false end.

Definition isRequest (e : event) : bool :=
  match e with Request _ => true | _ => false end.

(** The effects of a log: its requests and sleeps, without the status
    lines. *)
Definition effects (l : list event) : list event :=
  filter (fun e => negb (isStatus e)) l.

Definition requestCount (l : list event) : nat :=
  List.length (filter isRequest l).

(** The error a caught rejection leaves in [lastErr]. *)
Definition rejUpdate (lastErr : option string) (r : response) : option string :=
  match r with
  | Rejected m => Some m
  | Answered _ _ => lastErr
  end.

Definition isSleep (e : event) : bool :=
  match e with Sleep _ => true | _ => false end.

Section RelaySchedule.

Variable encodeURIComponent : string -> string.
Variable network : nat -> string -> response.
Variable url : string.

(** The requests of round [attempt] in order, and the sleep that follows
    the round unless it is the last. *)
Definition roundEvents (maxAttempts attempt : nat) : list event :=
  map (fun p => Request (proxyUrl encodeURIComponent url attempt p)) (seq 0 5)
  ++ (if (attempt <? maxAttempts - 1)%nat then [Sleep (1500 * (attempt + 1))] else []).

(** Everything a call does when no relay ever succeeds. *)
Definition eventSchedule (maxAttempts : nat) : list event :=
  flat_map (roundEvents maxAttempts) (seq 0 maxAttempts).


End RelaySchedule.

(** A feed answer that has option data but neither expiration dates nor
    puts. *)
Definition sparseChain : jsval :=
  JObj [("optionChain"%string,
         JObj [("result"%string,
                JArr [JObj [("options"%string,
                             JArr [JObj [("calls"%string,
                                          JArr [JObj [("strike"%string, JNum 100)]])]])]])])].

(** * Proofs *)

(** ** Comparisons *)

Lemma Qltb_lt (x y : Q) : JS.Qltb x y = true <-> x < y.
Proof.
  unfold JS.Qltb. rewrite negb_true_iff. split; intro H.
  - apply Qnot_le_lt. intro Hle. apply Qle_bool_iff in Hle. congruence.
  - destruct (Qle_bool y x) eqn:E; [|reflexivity].
    apply Qle_bool_iff in E. exfalso. apply (Qlt_not_le _ _ H E).
Qed.

Lemma Qltb_ge (x y : Q) : JS.Qltb x y = false <-> y <= x.
Proof.
  unfold JS.Qltb. rewrite negb_false_iff. apply Qle_bool_iff.
Qed.

Lemma Qle_bool_gt (x y : Q) : Qle_bool x y = false <-> y < x.
Proof.
  rewrite <- Qltb_lt. unfold JS.Qltb. rewrite negb_true_iff. reflexivity.
Qed.

Lemma orZero_eq (x : option Q) : JS.orZero x == JS.toNumber x.
Proof.
  destruct x as [q|]; simpl; [|reflexivity].
  destruct (Qeq_bool q 0) eqn:E; [|reflexivity].
  apply Qeq_bool_eq in E. symmetry. exact E.
Qed.

Lemma orZero_positive (x : option Q) : JS.Qltb 0 (JS.orZero x) = positive x.
Proof.
  destruct x as [q|]; simpl; [|reflexivity].
  destruct (Qeq_bool q 0) eqn:E; [|reflexivity].
  apply Qeq_bool_eq in E.
  symmetry. apply Qltb_ge. rewrite E. apply Qle_refl.
Qed.

Lemma orZero_of_positive (x : option Q) :
  positive x = true -> JS.orZero x = JS.toNumber x.
Proof.
  destruct x as [q|]; simpl; [|discriminate].
  intro H. apply Qltb_lt in H.
  destruct (Qeq_bool q 0) eqn:E; [|reflexivity].
  apply Qeq_bool_eq in E. rewrite E in H. exfalso. apply (Qlt_irrefl _ H).
Qed.

(** ** Sorting and slicing *)

Section SortFacts.

Context {A : Type}.
Variable cmp : A -> A -> Q.

Lemma insert_perm (x : A) (l : list A) : Permutation (JS.insert cmp x l) (x :: l).
Proof.
  induction l as [|y ys IH]; simpl.
  - apply Permutation_refl.
  - destruct (Qle_bool (cmp x y) 0).
    + apply Permutation_refl.
    + apply Permutation_trans with (y :: x :: ys).
      * apply perm_skip. exact IH.
      * apply perm_swap.
Qed.

Lemma sort_perm (l : list A) : Permutation (JS.sort cmp l) l.
Proof.
  induction l as [|x xs IH]; simpl.
  - apply perm_nil.
  - apply Permutation_trans with (x :: JS.sort cmp xs).
    + apply insert_perm.
    + apply perm_skip. exact IH.
Qed.

Lemma sort_length (l : list A) : List.length (JS.sort cmp l) = List.length l.
Proof. apply Permutation_length. apply sort_perm. Qed.

Local Abbreviation before := (before cmp).

Hypothesis cmp_flip : forall a b, 0 < cmp a b -> cmp b a <= 0.

Lemma insert_hd (x : A) (l : list A) (z : A) :
  before z x -> HdRel before z l -> HdRel before z (JS.insert cmp x l).
Proof.
  intros Hzx Hl. destruct l as [|y ys]; simpl.
  - constructor. exact Hzx.
  - destruct (Qle_bool (cmp x y) 0).
    + constructor. exact Hzx.
    + constructor. inversion Hl. assumption.
Qed.

Lemma insert_sorted (x : A) (l : list A) :
  Sorted before l -> Sorted before (JS.insert cmp x l).
Proof.
  induction l as [|y ys IH]; simpl; intro Hs.
  - constructor; constructor.
  - destruct (Qle_bool (cmp x y) 0) eqn:E.
    + constructor; [exact Hs|]. constructor. apply Qle_bool_iff. exact E.
    + apply Qle_bool_gt in E. inversion Hs as [|? ? Hys Hhd]; subst.
      constructor.
      * apply IH. exact Hys.
      * apply insert_hd; [|exact Hhd]. apply cmp_flip. exact E.
Qed.

Lemma sort_sorted (l : list A) : Sorted before (JS.sort cmp l).
Proof.
  induction l as [|x xs IH]; simpl.
  - constructor.
  - apply insert_sorted. exact IH.
Qed.

End SortFacts.

Lemma in_firstn {A : Type} (n : nat) (l : list A) (x : A) :
  In x (firstn n l) -> In x l.
Proof.
  intro H. rewrite <- (firstn_skipn n l). apply in_or_app. left. exact H.
Qed.

Lemma in_skipn {A : Type} (n : nat) (l : list A) (x : A) :
  In x (skipn n l) -> In x l.
Proof.
  intro H. rewrite <- (firstn_skipn n l). apply in_or_app. right. exact H.
Qed.

Lemma slice_incl {A : Type} (l : list A) (s e : Z) (x : A) :
  In x (JS.slice l s e) -> In x l.
Proof.
  unfold JS.slice. intro H.
  apply in_firstn in H. apply in_skipn in H. exact H.
Qed.

Lemma slice_nil {A : Type} (s e : Z) : JS.slice (@nil A) s e = [].
Proof.
  unfold JS.slice. rewrite skipn_nil. apply firstn_nil.
Qed.

Lemma slice_length_le {A : Type} (l : list A) (s e : Z) :
  (Z.of_nat (List.length (JS.slice l s e))
   <= Z.max 0 (JS.relIndex (Z.of_nat (List.length l)) e
               - JS.relIndex (Z.of_nat (List.length l)) s))%Z.
Proof.
  unfold JS.slice.
  pose proof (firstn_le_length
                (Z.to_nat (JS.relIndex (Z.of_nat (List.length l)) e
                           - JS.relIndex (Z.of_nat (List.length l)) s))
                (skipn (Z.to_nat (JS.relIndex (Z.of_nat (List.length l)) s)) l)) as H.
  lia.
Qed.

(** ** Days to expiry *)

Lemma daysUntilExpiry_ge_1 (expiryTs nowMs : Z) : (1 <= daysUntilExpiry expiryTs nowMs)%Z.
Proof. unfold daysUntilExpiry. apply Z.le_max_l. Qed.

Lemma dte_nonzero (d : Z) : (1 <= d)%Z -> ~ inject_Z d == 0.
Proof.
  intros H E. unfold Qeq in E. simpl in E. lia.
Qed.

Lemma Qceiling_nonpos (x : Q) : x <= 0 -> (Qceiling x <= 0)%Z.
Proof.
  intro H. pose proof (Qceiling_lt x) as Hc.
  assert (Hlt : inject_Z (Qceiling x - 1) < inject_Z 0).
  { apply Qlt_le_trans with x; assumption. }
  rewrite <- Zlt_Qlt in Hlt. lia.
Qed.

(** C4: for every expiration timestamp, past or same-day ones included,
    the days to expiry are [max(1, ceil((expirationTs - now) / 86400))],
    hence at least 1, and exactly 1 when the expiration is in the past or
    no more than a day ahead; every analyzed contract carries this number
    as its [dte], so the divisor of [extrinsicPerDTE] and
    [annualizedYield] is never zero. *)
Theorem daysUntilExpiry_at_least_one (expiryTs nowMs : Z) :
  daysUntilExpiry expiryTs nowMs
  = Z.max 1 (Qceiling ((inject_Z expiryTs - inject_Z nowMs / 1000) / 86400))
  /\ (1 <= daysUntilExpiry expiryTs nowMs)%Z
  /\ ~ inject_Z (daysUntilExpiry expiryTs nowMs) == 0
  /\ (inject_Z expiryTs <= inject_Z nowMs / 1000 -> daysUntilExpiry expiryTs nowMs = 1%Z)
  /\ (inject_Z expiryTs - inject_Z nowMs / 1000 <= 86400 ->
      daysUntilExpiry expiryTs nowMs = 1%Z)
  /\ (forall (spotPrice increment : Q) (c : RawOptionContract),
        Opt.dte (analyzeOne spotPrice (daysUntilExpiry expiryTs nowMs) increment c)
        = daysUntilExpiry expiryTs nowMs
        /\ ~ inject_Z
               (Opt.dte (analyzeOne spotPrice (daysUntilExpiry expiryTs nowMs) increment c))
             == 0).
Proof.
  pose proof (daysUntilExpiry_ge_1 expiryTs nowMs) as Hge.
  pose proof (dte_nonzero _ Hge) as Hnz.
  assert (Hday : inject_Z expiryTs - inject_Z nowMs / 1000 <= 86400 ->
                 daysUntilExpiry expiryTs nowMs = 1%Z).
  { intro Hle. unfold daysUntilExpiry.
    assert (Hx : (inject_Z expiryTs - inject_Z nowMs / 1000) / 86400 <= inject_Z 1).
    { unfold Qdiv at 1. setoid_replace (inject_Z 1) with (86400 * / 86400) by reflexivity.
      apply Qmult_le_compat_r; [exact Hle|]. discriminate. }
    apply Qceiling_resp_le in Hx. rewrite Qceiling_Z in Hx. lia. }
  split; [reflexivity|]. split; [exact Hge|]. split; [exact Hnz|]. split; [|split].
  - intro Hpast. apply Hday. lra.
  - exact Hday.
  - intros spotPrice increment c. split; [reflexivity|]. exact Hnz.
Qed.

(** A past expiration (one day before the clock reading) floors to 1. *)
Lemma daysUntilExpiry_at_least_one_witness :
  daysUntilExpiry 1700000000 1700086400000 = 1%Z.
Proof.
  apply (daysUntilExpiry_at_least_one 1700000000 1700086400000).
  vm_compute. discriminate.
Defined.

(** ** Per-contract derivation *)

Lemma analyze_from_calls (calls : list RawOptionContract) (spotPrice : Q)
    (expiryTs numStrikes nowMs : Z) (o : AnalyzedOption) :
  In o (analyzeCallOptions calls spotPrice expiryTs numStrikes nowMs) ->
  exists c, In c calls
            /\ o = analyzeOne spotPrice (daysUntilExpiry expiryTs nowMs)
                     (strikeIncrement (sortByStrike calls)
                        (atmIndex spotPrice (sortByStrike calls))) c.
Proof.
  unfold analyzeCallOptions. intro H. apply in_map_iff in H.
  destruct H as [c [Heq Hin]]. exists c. split; [|symmetry; exact Heq].
  unfold selectWindow in Hin. apply slice_incl in Hin.
  unfold sortByStrike in Hin.
  apply (Permutation_in c (sort_perm _ calls) Hin).
Qed.

Lemma midPrice_spec (c : RawOptionContract) : midPrice c == midSpec c.
Proof.
  unfold midPrice, midSpec. rewrite !orZero_positive.
  destruct (positive (Raw.bid c)) eqn:Eb; simpl.
  - destruct (positive (Raw.ask c)) eqn:Ea.
    + rewrite (orZero_of_positive _ Eb), (orZero_of_positive _ Ea). reflexivity.
    + rewrite orZero_eq. destruct (Raw.lastPrice c); reflexivity.
  - rewrite orZero_eq. destruct (Raw.lastPrice c); reflexivity.
Qed.

(** C1: every contract in the output of [analyzeCallOptions] comes from an
    input contract [c] with the same strike, and its derived fields are
    mid = (bid+ask)/2 when bid > 0 and ask > 0, else lastPrice when
    present, else 0; intrinsic = max(0, spot - strike); extrinsic =
    max(0, mid - intrinsic); so intrinsic and extrinsic are never
    negative. *)
Theorem analyze_derived_fields (calls : list RawOptionContract) (spotPrice : Q)
    (expiryTs numStrikes nowMs : Z) (o : AnalyzedOption) :
  In o (analyzeCallOptions calls spotPrice expiryTs numStrikes nowMs) ->
  exists c, In c calls
    /\ Opt.strike o = Raw.strike c
    /\ Opt.mid o == midSpec c
    /\ Opt.intrinsic o = Qmax 0 (spotPrice - Opt.strike o)
    /\ Opt.extrinsic o = Qmax 0 (Opt.mid o - Opt.intrinsic o)
    /\ 0 <= Opt.intrinsic o
    /\ 0 <= Opt.extrinsic o.
Proof.
  intro H. apply analyze_from_calls in H. destruct H as [c [Hin ->]].
  exists c. simpl.
  repeat split; try reflexivity; try exact Hin.
  - apply midPrice_spec.
  - apply Q.le_max_l.
  - apply Q.le_max_l.
Qed.

Lemma analyze_derived_fields_witness :
  exists c, In c [call160]
    /\ Opt.strike (analyzeOne 150 1 1 call160) = Raw.strike c
    /\ Opt.mid (analyzeOne 150 1 1 call160) == midSpec c
    /\ Opt.intrinsic (analyzeOne 150 1 1 call160)
       = Qmax 0 (150 - Opt.strike (analyzeOne 150 1 1 call160))
    /\ Opt.extrinsic (analyzeOne 150 1 1 call160)
       = Qmax 0 (Opt.mid (analyzeOne 150 1 1 call160)
                 - Opt.intrinsic (analyzeOne 150 1 1 call160))
    /\ 0 <= Opt.intrinsic (analyzeOne 150 1 1 call160)
    /\ 0 <= Opt.extrinsic (analyzeOne 150 1 1 call160).
Proof.
  apply (analyze_derived_fields [call160] 150 1700000000 3 1700000000000).
  vm_compute. left. reflexivity.
Defined.

Example scenario_spot150_strike160 :
  Opt.mid (analyzeOne 150 1 1 call160) == 250 # 100
  /\ Opt.intrinsic (analyzeOne 150 1 1 call160) == 0
  /\ Opt.extrinsic (analyzeOne 150 1 1 call160) == 250 # 100.
Proof. vm_compute. repeat split. Qed.

Lemma passThrough_numberOrNull (v : jsval) : passThrough v (JS.numberOrNull v).
Proof. destruct v; reflexivity. Qed.

(** A Greek of the output is a number only when the feed gave that number:
    an absent Greek is never turned into [0]. *)
Lemma passThrough_some (src : jsval) (dst : option Q) (q : Q) :
  passThrough src dst -> dst = Some q -> src = JNum q.
Proof.
  destruct src; simpl; intros -> E; try discriminate.
  injection E as ->. reflexivity.
Qed.

Lemma defaultedToZero_or (v : jsval) : defaultedToZero v (JS.or v (JNum 0)).
Proof.
  unfold defaultedToZero, JS.or. destruct (JS.truthy v); reflexivity.
Qed.

(** C5 (amended): for every contract in the output of [analyzeCallOptions]
    the Greeks delta, gamma, theta, vega and rho are the feed's value when
    that is a number and null otherwise; the implied volatility is the
    feed's value when that is truthy and the number 0 otherwise. *)
Theorem analyze_greeks_pass_through (calls : list RawOptionContract) (spotPrice : Q)
    (expiryTs numStrikes nowMs : Z) (o : AnalyzedOption) :
  In o (analyzeCallOptions calls spotPrice expiryTs numStrikes nowMs) ->
  exists c, In c calls
    /\ Opt.strike o = Raw.strike c
    /\ passThrough (Raw.delta c) (Opt.delta o)
    /\ passThrough (Raw.gamma c) (Opt.gamma o)
    /\ passThrough (Raw.theta c) (Opt.theta o)
    /\ passThrough (Raw.vega c) (Opt.vega o)
    /\ passThrough (Raw.rho c) (Opt.rho o)
    /\ defaultedToZero (Raw.impliedVolatility c) (Opt.impliedVol o).
Proof.
  intro H. apply analyze_from_calls in H. destruct H as [c [Hin ->]].
  exists c. simpl.
  repeat split; try exact Hin; try apply passThrough_numberOrNull.
  apply defaultedToZero_or.
Qed.

Lemma analyze_greeks_pass_through_witness :
  exists c, In c [call160]
    /\ Opt.strike (analyzeOne 150 1 1 call160) = Raw.strike c
    /\ passThrough (Raw.delta c) (Opt.delta (analyzeOne 150 1 1 call160))
    /\ passThrough (Raw.gamma c) (Opt.gamma (analyzeOne 150 1 1 call160))
    /\ passThrough (Raw.theta c) (Opt.theta (analyzeOne 150 1 1 call160))
    /\ passThrough (Raw.vega c) (Opt.vega (analyzeOne 150 1 1 call160))
    /\ passThrough (Raw.rho c) (Opt.rho (analyzeOne 150 1 1 call160))
    /\ defaultedToZero (Raw.impliedVolatility c)
                       (Opt.impliedVol (analyzeOne 150 1 1 call160)).
Proof.
  apply (analyze_greeks_pass_through [call160] 150 1700000000 3 1700000000000).
  vm_compute. left. reflexivity.
Defined.

(** Null-when-absent does not hold for the implied volatility: [call160]
    has none, and the analyzed contract reports the number 0, not null. *)
Lemma impliedVol_absent_not_null :
  ~ (forall (calls : list RawOptionContract) (spotPrice : Q)
            (expiryTs numStrikes nowMs : Z) (o : AnalyzedOption),
        In o (analyzeCallOptions calls spotPrice expiryTs numStrikes nowMs) ->
        exists c, In c calls
          /\ passThroughOrNull (Raw.impliedVolatility c) (Opt.impliedVol o)).
Proof.
  intro H.
  destruct (H [call160] 150 1700000000%Z 3%Z 1700000000000%Z (analyzeOne 150 1 1 call160))
    as [c [Hin Hp]].
  - vm_compute. left. reflexivity.
  - destruct Hin as [<-|[]]. vm_compute in Hp. discriminate.
Qed.

Example impliedVol_absent_value :
  Raw.impliedVolatility call160 = JUndefined
  /\ map Opt.impliedVol (analyzeCallOptions [call160] 150 1700000000 3 1700000000000)
     = [JNum 0].
Proof. vm_compute. split; reflexivity. Qed.

(** C10: on an empty contract sequence [analyzeCallOptions] returns the
    empty sequence, whatever the spot price, the expiration, the window
    size and the clock: the ATM index stays 0 and the selected slice is
    empty. *)
Theorem analyze_empty (spotPrice : Q) (expiryTs numStrikes nowMs : Z) :
  analyzeCallOptions [] spotPrice expiryTs numStrikes nowMs = []
  /\ atmIndex spotPrice (sortByStrike []) = 0%nat
  /\ selectWindow (sortByStrike []) (atmIndex spotPrice (sortByStrike [])) numStrikes = [].
Proof.
  assert (Hsel : selectWindow (sortByStrike []) (atmIndex spotPrice (sortByStrike []))
                              numStrikes = []).
  { unfold selectWindow. simpl. apply slice_nil. }
  split; [|split; [reflexivity|exact Hsel]].
  unfold analyzeCallOptions. rewrite Hsel. reflexivity.
Qed.

(** ** Sorting by strike, the at-the-money index and the window *)

Lemma StronglySorted_impl {A : Type} (R R' : A -> A -> Prop) (l : list A) :
  (forall a b, R a b -> R' a b) -> StronglySorted R l -> StronglySorted R' l.
Proof.
  intros Himp Hs. induction Hs as [|a l Hs IH Hall]; constructor.
  - exact IH.
  - apply Forall_impl with (P := R a); [apply Himp | exact Hall].
Qed.

Lemma sortByStrike_perm (calls : list RawOptionContract) :
  Permutation (sortByStrike calls) calls.
Proof. unfold sortByStrike. apply sort_perm. Qed.

Lemma sortByStrike_sorted (calls : list RawOptionContract) :
  StronglySorted (fun a b => Raw.strike a <= Raw.strike b) (sortByStrike calls).
Proof.
  unfold sortByStrike.
  apply StronglySorted_impl
    with (R := before (fun a b => Raw.strike a - Raw.strike b)).
  - unfold before. intros a b H. lra.
  - apply Sorted_StronglySorted.
    + unfold before. intros a b c Hab Hbc. lra.
    + apply sort_sorted. intros a b H. lra.
Qed.

Lemma combine_append {A B : Type} (l1 l2 : list A) (m1 m2 : list B) :
  List.length l1 = List.length m1 ->
  combine (l1 ++ l2) (m1 ++ m2) = combine l1 m1 ++ combine l2 m2.
Proof.
  revert m1. induction l1 as [|x l1 IH]; intros [|y m1] Hlen; simpl in *;
    try discriminate; try reflexivity.
  f_equal. apply IH. lia.
Qed.

Lemma findATM_snoc (spotPrice : Q) (l : list RawOptionContract) (c : RawOptionContract) :
  findATM spotPrice (l ++ [c])
  = atmStep spotPrice (findATM spotPrice l) (c, List.length l).
Proof.
  unfold findATM. rewrite length_app. simpl List.length.
  rewrite seq_app. simpl seq.
  rewrite combine_append by (rewrite length_seq; reflexivity).
  rewrite fold_left_app. reflexivity.
Qed.

Lemma nth_error_snoc {A : Type} (l : list A) (x y : A) (j : nat) :
  nth_error (l ++ [x]) j = Some y ->
  ((j < List.length l)%nat /\ nth_error l j = Some y) \/ (j = List.length l /\ y = x).
Proof.
  intro H. destruct (Nat.lt_ge_cases j (List.length l)) as [Hlt|Hge].
  - left. split; [exact Hlt|]. rewrite nth_error_app1 in H; assumption.
  - right. rewrite nth_error_app2 in H by exact Hge.
    destruct (j - List.length l)%nat as [|k] eqn:E; simpl in H.
    + injection H as <-. split; [lia|reflexivity].
    + destruct k; discriminate.
Qed.

Lemma atmStep_some (spotPrice : Q) (a i : nat) (d : Q) (c : RawOptionContract) :
  atmStep spotPrice (a, Some d) (c, i)
  = if JS.Qltb (strikeDist spotPrice c) d
    then (i, Some (strikeDist spotPrice c)) else (a, Some d).
Proof. reflexivity. Qed.

Lemma atmStep_none (spotPrice : Q) (a i : nat) (c : RawOptionContract) :
  atmStep spotPrice (a, None) (c, i) = (i, Some (strikeDist spotPrice c)).
Proof. reflexivity. Qed.

Lemma findATM_inv (spotPrice : Q) (l : list RawOptionContract) :
  atmInv spotPrice l (findATM spotPrice l).
Proof.
  induction l as [|c l IH] using rev_ind.
  - left. split; reflexivity.
  - right. rewrite findATM_snoc. destruct IH as [[-> Hst]|[ca [Hnth [Hmin Hall]]]].
    + rewrite Hst, atmStep_none.
      exists c. split; [reflexivity|]. split; [reflexivity|].
      intros j c' Hj. destruct j as [|[|j]]; simpl in Hj; try discriminate.
      injection Hj as <-. split; [apply Qle_refl|]. intro Hlt. inversion Hlt.
    + destruct (findATM spotPrice l) as [a md]. cbn [fst snd] in Hnth, Hmin, Hall.
      subst md.
      assert (Ha : (a < List.length l)%nat).
      { apply nth_error_Some. rewrite Hnth. discriminate. }
      rewrite atmStep_some.
      destruct (JS.Qltb (strikeDist spotPrice c) (strikeDist spotPrice ca)) eqn:E;
        cbn [fst snd].
      * apply Qltb_lt in E. exists c.
        split.
        { rewrite nth_error_app2 by apply Nat.le_refl.
          rewrite Nat.sub_diag. reflexivity. }
        split; [reflexivity|].
        intros j c' Hj. apply nth_error_snoc in Hj.
        destruct Hj as [[Hlt Hj]|[-> ->]].
        -- destruct (Hall j c' Hj) as [Hle _]. split; [|intros _]; lra.
        -- split; [apply Qle_refl|]. intro Hlt. lia.
      * apply Qltb_ge in E. exists ca.
        split; [rewrite nth_error_app1 by exact Ha; exact Hnth|].
        split; [reflexivity|].
        intros j c' Hj. apply nth_error_snoc in Hj.
        destruct Hj as [[Hlt Hj]|[-> ->]].
        -- apply Hall. exact Hj.
        -- split; [exact E|]. intro Hlt. lia.
Qed.

Lemma atmIndex_le_length (spotPrice : Q) (l : list RawOptionContract) :
  (atmIndex spotPrice l <= List.length l)%nat.
Proof.
  unfold atmIndex. destruct (findATM_inv spotPrice l) as [[-> ->]|[ca [Hnth _]]].
  - simpl. lia.
  - apply Nat.lt_le_incl. apply nth_error_Some. rewrite Hnth. discriminate.
Qed.

(** The at-the-money index is the first index of minimum distance. *)
Lemma atmIndex_first_min (spotPrice : Q) (l : list RawOptionContract) (j : nat)
    (c : RawOptionContract) :
  nth_error l j = Some c ->
  exists ca, nth_error l (atmIndex spotPrice l) = Some ca
             /\ strikeDist spotPrice ca <= strikeDist spotPrice c
             /\ ((j < atmIndex spotPrice l)%nat ->
                 strikeDist spotPrice ca < strikeDist spotPrice c).
Proof.
  intro Hj. unfold atmIndex.
  destruct (findATM_inv spotPrice l) as [[-> _]|[ca [Hnth [_ Hall]]]].
  - destruct j; discriminate.
  - exists ca. split; [exact Hnth|]. apply Hall. exact Hj.
Qed.

(** With a window size that is not negative, the slice bounds are plain
    indices into the sorted array. *)
Lemma selectWindow_firstn_skipn (sorted : list RawOptionContract) (atmIdx : nat)
    (numStrikes : Z) :
  (0 <= numStrikes)%Z -> (atmIdx <= List.length sorted)%nat ->
  selectWindow sorted atmIdx numStrikes
  = firstn (Nat.min (List.length sorted) (atmIdx + Z.to_nat numStrikes + 1)
            - (atmIdx - Z.to_nat numStrikes))
           (skipn (atmIdx - Z.to_nat numStrikes) sorted).
Proof.
  intros Hn Ha. unfold selectWindow, JS.slice, startIdx, endIdx, JS.relIndex.
  destruct (Z.ltb_spec (Z.max 0 (Z.of_nat atmIdx - numStrikes)) 0) as [H1|H1]; [lia|].
  destruct (Z.ltb_spec (Z.min (Z.of_nat (List.length sorted))
                              (Z.of_nat atmIdx + numStrikes + 1)) 0) as [H2|H2]; [lia|].
  f_equal; [|f_equal]; lia.
Qed.

Lemma windowSpec_length (sorted : list RawOptionContract) (atmIdx h : nat) :
  (List.length (windowSpec sorted atmIdx h) <= 2 * h + 1)%nat.
Proof.
  unfold windowSpec. rewrite length_firstn, length_skipn. lia.
Qed.

(** C6: for a window size that is not negative, [analyzeCallOptions] works
    on the contracts sorted ascending by strike (a permutation of the
    input), takes as ATM index the first index of minimum |strike - spot|,
    and returns the derived contracts of the contiguous slice from
    [numStrikes] below to [numStrikes] above that index, clipped to the
    array; the output has at most 2 * numStrikes + 1 contracts. *)
Theorem analyze_window (calls : list RawOptionContract) (spotPrice : Q)
    (expiryTs numStrikes nowMs : Z) :
  (0 <= numStrikes)%Z ->
  Permutation (sortByStrike calls) calls
  /\ StronglySorted (fun a b => Raw.strike a <= Raw.strike b) (sortByStrike calls)
  /\ (forall j c, nth_error (sortByStrike calls) j = Some c ->
        exists ca,
          nth_error (sortByStrike calls) (atmIndex spotPrice (sortByStrike calls)) = Some ca
          /\ Qabs (Raw.strike ca - spotPrice) <= Qabs (Raw.strike c - spotPrice)
          /\ ((j < atmIndex spotPrice (sortByStrike calls))%nat ->
              Qabs (Raw.strike ca - spotPrice) < Qabs (Raw.strike c - spotPrice)))
  /\ analyzeCallOptions calls spotPrice expiryTs numStrikes nowMs
     = map (analyzeOne spotPrice (daysUntilExpiry expiryTs nowMs)
              (strikeIncrement (sortByStrike calls)
                 (atmIndex spotPrice (sortByStrike calls))))
           (windowSpec (sortByStrike calls) (atmIndex spotPrice (sortByStrike calls))
                       (Z.to_nat numStrikes))
  /\ (Z.of_nat (List.length (analyzeCallOptions calls spotPrice expiryTs numStrikes nowMs))
      <= 2 * numStrikes + 1)%Z.
Proof.
  intro Hn.
  assert (Hout : analyzeCallOptions calls spotPrice expiryTs numStrikes nowMs
     = map (analyzeOne spotPrice (daysUntilExpiry expiryTs nowMs)
              (strikeIncrement (sortByStrike calls)
                 (atmIndex spotPrice (sortByStrike calls))))
           (windowSpec (sortByStrike calls) (atmIndex spotPrice (sortByStrike calls))
                       (Z.to_nat numStrikes))).
  { unfold analyzeCallOptions.
    rewrite selectWindow_firstn_skipn by (try exact Hn; apply atmIndex_le_length).
    reflexivity. }
  split; [apply sortByStrike_perm|].
  split; [apply sortByStrike_sorted|].
  split; [intros j c Hj; apply (atmIndex_first_min spotPrice _ j c Hj)|].
  split; [exact Hout|].
  rewrite Hout, length_map.
  pose proof (windowSpec_length (sortByStrike calls)
                (atmIndex spotPrice (sortByStrike calls)) (Z.to_nat numStrikes)).
  lia.
Qed.

(** The specification's scenario: strikes 100, 105, 110 (given out of
    order), spot 105, half window 1. *)
Lemma analyze_window_witness :
  (Z.of_nat (List.length
     (analyzeCallOptions [callAt 110; callAt 100; callAt 105] 105
                         1700000000 1 1700000000000))
   <= 2 * 1 + 1)%Z.
Proof.
  apply (analyze_window [callAt 110; callAt 100; callAt 105] 105
                        1700000000 1 1700000000000).
  vm_compute. discriminate.
Defined.

Example scenario_three_strikes :
  atmIndex 105 (sortByStrike [callAt 110; callAt 100; callAt 105]) = 1%nat
  /\ map Opt.strike
         (analyzeCallOptions [callAt 110; callAt 100; callAt 105] 105
                             1700000000 1 1700000000000)
     = [100; 105; 110].
Proof. vm_compute. split; reflexivity. Qed.

(** A negative window size is outside the theorem: the end bound turns
    negative and [slice] counts it from the end of the array. *)
Example negative_window_counts_from_end :
  map Opt.strike
      (analyzeCallOptions [callAt 100; callAt 105; callAt 110; callAt 115; callAt 120]
                          90 1700000000 (-2) 1700000000000)
  = [110; 115].
Proof. vm_compute. reflexivity. Qed.

(** ** Ranking *)

Lemma mapiFrom_contract (i0 : nat) (l : list AnalyzedOption) :
  map contract (JS.mapiFrom (fun o i => {| contract := o; rank := (i + 1)%nat |}) i0 l) = l.
Proof.
  revert i0. induction l as [|o l IH]; intro i0; simpl.
  - reflexivity.
  - f_equal. apply IH.
Qed.

Lemma mapiFrom_rank (i0 : nat) (l : list AnalyzedOption) :
  map rank (JS.mapiFrom (fun o i => {| contract := o; rank := (i + 1)%nat |}) i0 l)
  = seq (i0 + 1) (List.length l).
Proof.
  revert i0. induction l as [|o l IH]; intro i0; simpl.
  - reflexivity.
  - f_equal. rewrite IH. f_equal.
Qed.

Lemma assignRanks_contract (l : list AnalyzedOption) : map contract (assignRanks l) = l.
Proof. apply mapiFrom_contract. Qed.

Lemma assignRanks_rank (l : list AnalyzedOption) :
  map rank (assignRanks l) = seq 1 (List.length l).
Proof. apply (mapiFrom_rank 0). Qed.

Lemma assignRanks_length (l : list AnalyzedOption) :
  List.length (assignRanks l) = List.length l.
Proof.
  rewrite <- (length_map contract). rewrite assignRanks_contract. reflexivity.
Qed.

Lemma isUnscored_negb (o : AnalyzedOption) : isUnscored o = negb (isScored o).
Proof.
  unfold isUnscored, isScored, JS.Qltb.
  destruct (Opt.efficiencyScore o); [|reflexivity].
  rewrite negb_involutive. reflexivity.
Qed.

Lemma filter_split_perm {A : Type} (p q : A -> bool) (l : list A) :
  (forall x, q x = negb (p x)) ->
  Permutation (filter p l ++ filter q l) l.
Proof.
  intro Hq. induction l as [|x l IH]; simpl.
  - apply perm_nil.
  - rewrite Hq. destruct (p x); simpl.
    + apply perm_skip. exact IH.
    + apply Permutation_sym. apply Permutation_cons_app.
      apply Permutation_sym. exact IH.
Qed.

(** Whichever branch runs, the ranked contracts are a rearrangement of the
    rankable ones. *)
Lemma rankByEfficiency_perm (options : list AnalyzedOption) :
  Permutation (map contract (rankByEfficiency options)) (filter isRankable options).
Proof.
  unfold rankByEfficiency. destruct (existsb hasScore options).
  - rewrite assignRanks_contract.
    apply Permutation_trans
      with (filter isScored (filter isRankable options)
            ++ filter isUnscored (filter isRankable options)).
    + apply Permutation_app; apply sort_perm.
    + apply filter_split_perm. apply isUnscored_negb.
  - rewrite assignRanks_contract. apply sort_perm.
Qed.

Lemma rankByEfficiency_ranks (options : list AnalyzedOption) :
  map rank (rankByEfficiency options) = seq 1 (List.length (rankByEfficiency options)).
Proof.
  unfold rankByEfficiency.
  destruct (existsb hasScore options); rewrite assignRanks_rank, assignRanks_length;
    reflexivity.
Qed.

(** C2: the ranks [rankByEfficiency] assigns are exactly 1..N in output
    order (so without gap or duplicate), the ranked contracts are a
    rearrangement of exactly the input contracts with extrinsic > 0.01, and
    every ranked contract has extrinsic > 0.01. *)
Theorem rank_dense_over_rankable (options : list AnalyzedOption) :
  map rank (rankByEfficiency options) = seq 1 (List.length (rankByEfficiency options))
  /\ NoDup (map rank (rankByEfficiency options))
  /\ Permutation (map contract (rankByEfficiency options))
                 (filter (fun o => JS.Qltb (1 # 100) (Opt.extrinsic o)) options)
  /\ List.length (rankByEfficiency options)
     = List.length (filter (fun o => JS.Qltb (1 # 100) (Opt.extrinsic o)) options)
  /\ Forall (fun r => 1 # 100 < Opt.extrinsic (contract r)) (rankByEfficiency options).
Proof.
  pose proof (rankByEfficiency_perm options) as Hperm.
  split; [apply rankByEfficiency_ranks|].
  split; [rewrite rankByEfficiency_ranks; apply seq_NoDup|].
  split; [exact Hperm|].
  split.
  - rewrite <- (length_map contract). apply Permutation_length. exact Hperm.
  - apply Forall_forall. intros r Hr.
    assert (Hin : In (contract r) (filter isRankable options)).
    { apply (Permutation_in _ Hperm). apply in_map. exact Hr. }
    apply filter_In in Hin. destruct Hin as [_ Hrk].
    apply Qltb_lt. exact Hrk.
Qed.

Lemma existsb_filter_false {A : Type} (p q : A -> bool) (l : list A) :
  existsb p l = false -> existsb p (filter q l) = false.
Proof.
  induction l as [|x l IH]; simpl; intro H; [reflexivity|].
  apply orb_false_iff in H. destruct H as [Hx Hl].
  destruct (q x); simpl; [rewrite Hx|]; auto.
Qed.

Lemma no_score_split (l : list AnalyzedOption) :
  existsb hasScore l = false ->
  filter isScored l = [] /\ filter isUnscored l = l.
Proof.
  induction l as [|o l IH]; simpl; intro H; [split; reflexivity|].
  apply orb_false_iff in H. destruct H as [Ho Hl].
  destruct (IH Hl) as [IH1 IH2].
  unfold hasScore in Ho. unfold isScored at 1, isUnscored at 1.
  destruct (Opt.efficiencyScore o); [discriminate|].
  rewrite IH1, IH2. split; reflexivity.
Qed.

Lemma rankByEfficiency_rankSpec (options : list AnalyzedOption) :
  rankByEfficiency options = rankSpec options.
Proof.
  unfold rankByEfficiency, rankSpec.
  destruct (existsb hasScore options) eqn:Hall.
  - destruct (existsb hasScore (filter isRankable options)) eqn:Hrk; [reflexivity|].
    destruct (no_score_split _ Hrk) as [-> ->]. reflexivity.
  - rewrite (existsb_filter_false _ isRankable _ Hall). reflexivity.
Qed.

Lemma sort_byEfficiency_desc (l : list AnalyzedOption) :
  StronglySorted
    (fun a b => JS.toNumber (Opt.efficiencyScore b) <= JS.toNumber (Opt.efficiencyScore a))
    (JS.sort byEfficiencyDesc l).
Proof.
  apply StronglySorted_impl with (R := before byEfficiencyDesc).
  - unfold before, byEfficiencyDesc. intros a b H. lra.
  - apply Sorted_StronglySorted.
    + unfold before, byEfficiencyDesc. intros a b c Hab Hbc. lra.
    + apply sort_sorted. unfold byEfficiencyDesc. intros a b H. lra.
Qed.

Lemma sort_byFallback_desc (l : list AnalyzedOption) :
  StronglySorted (fun a b => Opt.fallbackScore b <= Opt.fallbackScore a)
                 (JS.sort byFallbackDesc l).
Proof.
  apply StronglySorted_impl with (R := before byFallbackDesc).
  - unfold before, byFallbackDesc. intros a b H. lra.
  - apply Sorted_StronglySorted.
    + unfold before, byFallbackDesc. intros a b c Hab Hbc. lra.
    + apply sort_sorted. unfold byFallbackDesc. intros a b H. lra.
Qed.

Lemma mapiFrom_numberFrom (i0 : nat) (l : list AnalyzedOption) :
  JS.mapiFrom (fun o i => {| contract := o; rank := (i + 1)%nat |}) i0 l
  = numberFrom (i0 + 1) l.
Proof.
  revert i0. induction l as [|o l IH]; intro i0; simpl; [reflexivity|].
  f_equal. apply (IH (S i0)).
Qed.

Lemma assignRanks_numberFrom (l : list AnalyzedOption) : assignRanks l = numberFrom 1 l.
Proof. apply (mapiFrom_numberFrom 0). Qed.

Lemma Qle_bool_diff (x y : Q) : Qle_bool (y - x) 0 = Qle_bool y x.
Proof.
  destruct (Qle_bool y x) eqn:E.
  - apply Qle_bool_iff in E. apply Qle_bool_iff. lra.
  - apply Qle_bool_gt in E. apply Qle_bool_gt. lra.
Qed.

Lemma sort_sortDescBy (key : AnalyzedOption -> Q) (l : list AnalyzedOption) :
  JS.sort (fun a b => key b - key a) l = sortDescBy key l.
Proof.
  induction l as [|x l IH]; simpl; [reflexivity|].
  rewrite IH. generalize (sortDescBy key l) as s. intro s.
  induction s as [|y ys IHs]; simpl; [reflexivity|].
  rewrite Qle_bool_diff, IHs. reflexivity.
Qed.

Lemma sortDescBy_perm (key : AnalyzedOption -> Q) (l : list AnalyzedOption) :
  Permutation (sortDescBy key l) l.
Proof. rewrite <- sort_sortDescBy. apply sort_perm. Qed.

Lemma sortDescBy_desc (key : AnalyzedOption -> Q) (l : list AnalyzedOption) :
  StronglySorted (fun a b => key b <= key a) (sortDescBy key l).
Proof.
  rewrite <- sort_sortDescBy.
  apply StronglySorted_impl with (R := before (fun a b => key b - key a)).
  - unfold before. intros a b H. lra.
  - apply Sorted_StronglySorted.
    + unfold before. intros a b c Hab Hbc. lra.
    + apply sort_sorted. intros a b H. lra.
Qed.

Lemma rankSpec_rankBySpec (options : list AnalyzedOption) :
  rankSpec options = rankBySpec options.
Proof.
  unfold rankSpec, rankBySpec. rewrite !assignRanks_numberFrom.
  change (JS.sort byEfficiencyDesc) with (JS.sort (fun a b => specScore b - specScore a)).
  change (JS.sort byFallbackDesc)
    with (JS.sort (fun a b => Opt.fallbackScore b - Opt.fallbackScore a)).
  rewrite !sort_sortDescBy. reflexivity.
Qed.

Lemma rankByEfficiency_rankBySpec (options : list AnalyzedOption) :
  rankByEfficiency options = rankBySpec options.
Proof.
  rewrite rankByEfficiency_rankSpec. apply rankSpec_rankBySpec.
Qed.

Lemma numberFrom_contract (i : nat) (l : list AnalyzedOption) :
  map contract (numberFrom i l) = l.
Proof.
  revert i. induction l as [|o l IH]; intro i; simpl; [reflexivity|].
  f_equal. apply IH.
Qed.

Lemma numberFrom_rank (i : nat) (l : list AnalyzedOption) :
  map rank (numberFrom i l) = seq i (List.length l).
Proof.
  revert i. induction l as [|o l IH]; intro i; simpl; [reflexivity|].
  f_equal. apply IH.
Qed.

(** C3: [rankByEfficiency] computes, on every input, the ranking of the
    specification's rule [rankBySpec], whose mode is chosen by the rankable
    contracts (extrinsic > 0.01).  The ranks are 1..N in output order, N
    the number of rankable contracts.  When a rankable contract has a
    non-null efficiency score, the ranked contracts are the scored rankable
    contracts (score present and > 0) in descending efficiency score,
    followed by the unscored ones (null or <= 0) in descending fallback
    score; when no contract has a score, they are the rankable contracts in
    descending fallback score. *)
Theorem rank_mode_selection (options : list AnalyzedOption) :
  rankByEfficiency options = rankBySpec options
  /\ map rank (rankByEfficiency options)
     = seq 1 (List.length (filter specRankable options))
  /\ (existsb specHasScore (filter specRankable options) = true ->
      exists scored unscored,
        map contract (rankByEfficiency options) = scored ++ unscored
        /\ scored = sortDescBy specScore (filter specScored (filter specRankable options))
        /\ unscored
           = sortDescBy Opt.fallbackScore (filter specUnscored (filter specRankable options))
        /\ Permutation scored (filter specScored (filter specRankable options))
        /\ StronglySorted (fun a b => specScore b <= specScore a) scored
        /\ Permutation unscored (filter specUnscored (filter specRankable options))
        /\ StronglySorted (fun a b => Opt.fallbackScore b <= Opt.fallbackScore a) unscored)
  /\ (existsb specHasScore options = false ->
      map contract (rankByEfficiency options)
      = sortDescBy Opt.fallbackScore (filter specRankable options)
      /\ Permutation (map contract (rankByEfficiency options))
                     (filter specRankable options)
      /\ StronglySorted (fun a b => Opt.fallbackScore b <= Opt.fallbackScore a)
                        (map contract (rankByEfficiency options))).
Proof.
  pose proof (rankByEfficiency_rankBySpec options) as Hspec.
  split; [exact Hspec|]. split; [|split].
  - rewrite Hspec. unfold rankBySpec.
    destruct (existsb specHasScore (filter specRankable options));
      rewrite numberFrom_rank; f_equal.
    + rewrite length_app.
      rewrite (Permutation_length (sortDescBy_perm _ _)),
        (Permutation_length (sortDescBy_perm _ _)), <- length_app.
      apply Permutation_length. apply filter_split_perm.
      intro o. unfold specUnscored, specScored, JS.Qltb.
      destruct (Opt.efficiencyScore o); [|reflexivity].
      rewrite negb_involutive. reflexivity.
    + apply Permutation_length. apply sortDescBy_perm.
  - intro Hmode. rewrite Hspec. unfold rankBySpec. rewrite Hmode, numberFrom_contract.
    eexists. eexists. split; [reflexivity|]. split; [reflexivity|]. split; [reflexivity|].
    split; [apply sortDescBy_perm|]. split; [apply sortDescBy_desc|].
    split; [apply sortDescBy_perm|apply sortDescBy_desc].
  - intro Hnone. rewrite Hspec. unfold rankBySpec.
    rewrite (existsb_filter_false _ specRankable _ Hnone), numberFrom_contract.
    split; [reflexivity|]. split; [apply sortDescBy_perm|apply sortDescBy_desc].
Qed.

(** A mixed set: two scored contracts, two unscored ones and one below the
    rankability threshold. *)
Lemma rank_mode_selection_witness :
  map (fun r => (Opt.strike (contract r), rank r))
      (rankByEfficiency
         [analyzedWith 100 2 (Some 4) (2 # 7); analyzedWith 105 3 None (3 # 7);
          analyzedWith 110 (1 # 1000) (Some 9) (1 # 7000);
          analyzedWith 115 1 (Some 6) (1 # 7); analyzedWith 120 5 None (5 # 7)])
  = [(115, 1%nat); (100, 2%nat); (120, 3%nat); (105, 4%nat)].
Proof.
  rewrite (proj1 (rank_mode_selection
                    [analyzedWith 100 2 (Some 4) (2 # 7); analyzedWith 105 3 None (3 # 7);
                     analyzedWith 110 (1 # 1000) (Some 9) (1 # 7000);
                     analyzedWith 115 1 (Some 6) (1 # 7); analyzedWith 120 5 None (5 # 7)])).
  vm_compute. reflexivity.
Defined.

Example scenario_mixed_ranking :
  map (fun r => (Opt.strike (contract r), rank r))
      (rankByEfficiency
         [analyzedWith 100 2 (Some 4) (2 # 7); analyzedWith 105 3 None (3 # 7);
          analyzedWith 110 (1 # 1000) (Some 9) (1 # 7000);
          analyzedWith 115 1 (Some 6) (1 # 7); analyzedWith 120 5 None (5 # 7)])
  = [(115, 1%nat); (100, 2%nat); (120, 3%nat); (105, 4%nat)].
Proof. vm_compute. reflexivity. Qed.

(** Only a contract below the rankability threshold has a score: the code
    takes the split branch, the rule of the specification the other one,
    and the rankings coincide. *)
Example scenario_score_outside_rankable :
  existsb hasScore
    [analyzedWith 100 2 None (2 # 7); analyzedWith 110 (1 # 1000) (Some 9) (1 # 7000)] = true
  /\ existsb hasScore
       (filter isRankable
          [analyzedWith 100 2 None (2 # 7); analyzedWith 110 (1 # 1000) (Some 9) (1 # 7000)])
     = false
  /\ map (fun r => (Opt.strike (contract r), rank r))
         (rankByEfficiency
            [analyzedWith 100 2 None (2 # 7);
             analyzedWith 110 (1 # 1000) (Some 9) (1 # 7000)])
     = [(100, 1%nat)].
Proof. vm_compute. repeat split. Qed.

(** ** Expiration matching *)

Lemma closerStep_some (t : Q) (best ts : Z) :
  closerStep (Some t) best ts
  = if JS.Qltb (expiryDist t ts) (expiryDist t best) then ts else best.
Proof. reflexivity. Qed.

Lemma closerStep_same (target : option Q) (a : Z) : closerStep target a a = a.
Proof.
  unfold closerStep. destruct (ltNaN (distTo target a) (distTo target a)); reflexivity.
Qed.

Lemma closer_fold_nan (l : list Z) (best : Z) :
  fold_left (closerStep None) l best = best.
Proof.
  revert best. induction l as [|x l IH]; intro best; simpl; [reflexivity|].
  apply IH.
Qed.

(** After the reducer has visited [a0 :: visited], the accumulator is the
    first element of minimum distance among them. *)
Lemma closer_fold_first_min (t : Q) (a0 : Z) (visited : list Z) :
  exists i,
    nth_error (a0 :: visited) i = Some (fold_left (closerStep (Some t)) visited a0)
    /\ forall j ts, nth_error (a0 :: visited) j = Some ts ->
         expiryDist t (fold_left (closerStep (Some t)) visited a0) <= expiryDist t ts
         /\ ((j < i)%nat ->
             expiryDist t (fold_left (closerStep (Some t)) visited a0) < expiryDist t ts).
Proof.
  induction visited as [|x visited IH] using rev_ind.
  - exists 0%nat. split; [reflexivity|].
    intros j ts Hj. destruct j as [|[|j]]; simpl in Hj; try discriminate.
    injection Hj as <-. split; [apply Qle_refl|]. intro H. inversion H.
  - destruct IH as [i [Hi Hall]].
    rewrite fold_left_app. simpl fold_left. rewrite closerStep_some.
    set (best := fold_left (closerStep (Some t)) visited a0) in *.
    assert (Hlen : (i < List.length (a0 :: visited))%nat).
    { apply nth_error_Some. rewrite Hi. discriminate. }
    change (a0 :: visited ++ [x]) with ((a0 :: visited) ++ [x]).
    destruct (JS.Qltb (expiryDist t x) (expiryDist t best)) eqn:E.
    + apply Qltb_lt in E. exists (List.length (a0 :: visited)).
      split.
      { rewrite nth_error_app2 by apply Nat.le_refl.
        rewrite Nat.sub_diag. reflexivity. }
      intros j ts Hj. apply nth_error_snoc in Hj.
      destruct Hj as [[Hlt Hj]|[-> ->]].
      * destruct (Hall j ts Hj) as [Hle _]. split; [|intros _]; lra.
      * split; [apply Qle_refl|]. intro Hlt. lia.
    + apply Qltb_ge in E. exists i.
      split; [rewrite nth_error_app1 by exact Hlen; exact Hi|].
      intros j ts Hj. apply nth_error_snoc in Hj.
      destruct Hj as [[Hlt Hj]|[-> ->]].
      * apply Hall. exact Hj.
      * split; [exact E|]. intro Hlt. lia.
Qed.

(** C7: on a non-empty sequence of expiration timestamps
    [findClosestExpiry] returns one of its elements; for a target date
    that parses, with the target anchored at 16:00 local time, the
    returned element is at minimum absolute distance from the target, and
    every element before it in the sequence is strictly farther: among
    equidistant elements the first one is returned. *)
Theorem findClosestExpiry_first_min (Date_getTime : string -> option Z)
    (available : list Z) (targetDateStr : string) :
  available <> [] ->
  exists r,
    findClosestExpiry Date_getTime available targetDateStr = Some r
    /\ In r available
    /\ forall ms, Date_getTime (targetDateStr ++ "T16:00:00")%string = Some ms ->
         exists i,
           nth_error available i = Some r
           /\ forall j ts, nth_error available j = Some ts ->
                Qabs (inject_Z r - inject_Z ms / 1000)
                <= Qabs (inject_Z ts - inject_Z ms / 1000)
                /\ ((j < i)%nat ->
                    Qabs (inject_Z r - inject_Z ms / 1000)
                    < Qabs (inject_Z ts - inject_Z ms / 1000)).
Proof.
  intro Hne. destruct available as [|a0 rest]; [contradiction|].
  unfold findClosestExpiry. simpl fold_left. rewrite closerStep_same.
  eexists. split; [reflexivity|].
  unfold targetOf. destruct (Date_getTime (targetDateStr ++ "T16:00:00")%string) as [ms0|].
  - simpl option_map.
    destruct (closer_fold_first_min (inject_Z ms0 / 1000) a0 rest) as [i [Hi Hall]].
    split; [apply (nth_error_In _ _ Hi)|].
    intros ms Hms. injection Hms as <-.
    exists i. split; [exact Hi|]. exact Hall.
  - simpl option_map. rewrite closer_fold_nan.
    split; [left; reflexivity|]. intros ms Hms. discriminate.
Qed.

(** A target exactly between two expirations: the earlier one is kept. *)
Lemma findClosestExpiry_first_min_witness :
  exists r,
    findClosestExpiry (fun _ => Some 200000%Z) [100%Z; 300%Z] "2024-01-19" = Some r
    /\ In r [100%Z; 300%Z]
    /\ forall ms, (fun _ : string => Some 200000%Z) ("2024-01-19" ++ "T16:00:00")%string
                  = Some ms ->
         exists i,
           nth_error [100%Z; 300%Z] i = Some r
           /\ forall j ts, nth_error [100%Z; 300%Z] j = Some ts ->
                Qabs (inject_Z r - inject_Z ms / 1000)
                <= Qabs (inject_Z ts - inject_Z ms / 1000)
                /\ ((j < i)%nat ->
                    Qabs (inject_Z r - inject_Z ms / 1000)
                    < Qabs (inject_Z ts - inject_Z ms / 1000)).
Proof.
  apply (findClosestExpiry_first_min (fun _ => Some 200000%Z) [100%Z; 300%Z] "2024-01-19").
  discriminate.
Defined.

Example scenario_target_between :
  findClosestExpiry (fun _ => Some 200000%Z) [100%Z; 300%Z] "2024-01-19" = Some 100%Z
  /\ findClosestExpiry (fun _ => Some 200000%Z) [300%Z; 100%Z] "2024-01-19" = Some 300%Z
  /\ findClosestExpiry (fun _ => Some 200000%Z) [] "2024-01-19" = None.
Proof. vm_compute. repeat split. Qed.

(** ** Relay fetch *)

Section RelayFacts.

Variable encodeURIComponent : string -> string.
Variable JSON_parse : string -> option jsval.
Variable network : nat -> string -> response.
Variable url : string.
Variable onStatus : bool.
Variable label : string.

Local Abbreviation softFail := (softFail JSON_parse).
Local Abbreviation succeedsWith := (succeedsWith JSON_parse).
Local Abbreviation answerAt := (answerAt encodeURIComponent network url).
Local Abbreviation answerFrom := (answerFrom encodeURIComponent network url).

Lemma short_text (text : string) :
  (String.length text < 30)%nat ->
  String.eqb text EmptyString || (String.length text <? 30)%nat = true.
Proof.
  intro H. apply orb_true_iff. right. apply Nat.ltb_lt. exact H.
Qed.

Lemma long_text (text : string) :
  (30 <= String.length text)%nat ->
  String.eqb text EmptyString || (String.length text <? 30)%nat = false.
Proof.
  intro H. apply orb_false_iff. split.
  - destruct text; [simpl in H; lia | reflexivity].
  - apply Nat.ltb_ge. exact H.
Qed.

Lemma tryProxy_requests (attempt p : nat) (st : netState) :
  requests (snd (tryProxy encodeURIComponent JSON_parse network url onStatus label
                          attempt p st))
  = S (requests st).
Proof.
  unfold tryProxy.
  assert (Hr : requests (if onStatus
                         then record (Status (statusLine encodeURIComponent label attempt p)) st
                         else st) = requests st).
  { destruct onStatus; reflexivity. }
  destruct (network _ _) as [m|ok text]; [simpl; congruence|].
  destruct (negb ok); [simpl; congruence|].
  destruct (_ || _); [simpl; congruence|].
  destruct (JSON_parse text); simpl; congruence.
Qed.

Lemma tryProxy_soft (attempt p : nat) (st : netState) :
  softFail (network (requests st) (proxyUrl encodeURIComponent url attempt p)) ->
  exists e, fst (tryProxy encodeURIComponent JSON_parse network url onStatus label
                          attempt p st) = SoftFail e.
Proof.
  unfold tryProxy.
  replace (requests (if onStatus
                     then record (Status (statusLine encodeURIComponent label attempt p)) st
                     else st)) with (requests st) by (destruct onStatus; reflexivity).
  intro H. inversion H as [m Hm|text Hm|ok text Hlen Hm|ok text Hp Hm].
  - eexists. reflexivity.
  - eexists. reflexivity.
  - destruct ok; simpl negb; cbv iota; [|eexists; reflexivity].
    rewrite (short_text _ Hlen). eexists. reflexivity.
  - destruct ok; simpl negb; cbv iota; [|eexists; reflexivity].
    destruct (_ || _); [eexists; reflexivity|].
    rewrite Hp. eexists. reflexivity.
Qed.

Lemma tryProxy_success (attempt p : nat) (st : netState) (data : jsval) :
  succeedsWith data (network (requests st) (proxyUrl encodeURIComponent url attempt p)) ->
  fst (tryProxy encodeURIComponent JSON_parse network url onStatus label attempt p st)
  = Parsed data.
Proof.
  unfold tryProxy.
  replace (requests (if onStatus
                     then record (Status (statusLine encodeURIComponent label attempt p)) st
                     else st)) with (requests st) by (destruct onStatus; reflexivity).
  intros [text [-> [Hlen Hp]]]. simpl negb. cbv iota.
  rewrite (long_text _ Hlen), Hp. reflexivity.
Qed.

Local Abbreviation ploop :=
  (proxyLoop encodeURIComponent JSON_parse network url onStatus label).
Local Abbreviation aloop :=
  (attemptLoop encodeURIComponent JSON_parse network url onStatus label).

Ltac step_tryProxy attempt p st H e He st1 Hr :=
  destruct (tryProxy_soft attempt p st H) as [e He];
  pose proof (tryProxy_requests attempt p st) as Hr;
  destruct (tryProxy encodeURIComponent JSON_parse network url onStatus label attempt p st)
    as [? st1];
  simpl in He, Hr; subst.

(** A round in which every relay soft-fails ends without data, after one
    request per relay. *)
Lemma proxyLoop_all_fail (attempt m : nat) :
  forall (p0 : nat) (lastErr : option string) (st : netState),
    (forall i, (i < m)%nat ->
       softFail (network (requests st + i)
                         (proxyUrl encodeURIComponent url attempt (p0 + i)))) ->
    exists le st',
      ploop attempt (seq p0 m) lastErr st = (None, le, st')
      /\ requests st' = (requests st + m)%nat.
Proof.
  induction m as [|m IH]; intros p0 lastErr st H.
  - exists lastErr, st. split; [reflexivity|lia].
  - assert (H0 : softFail (network (requests st)
                                   (proxyUrl encodeURIComponent url attempt p0))).
    { specialize (H 0%nat). rewrite !Nat.add_0_r in H. apply H. lia. }
    simpl seq. cbn [proxyLoop].
    step_tryProxy attempt p0 st H0 e He st1 Hr.
    assert (Hrest : forall i, (i < m)%nat ->
              softFail (network (requests st1 + i)
                                (proxyUrl encodeURIComponent url attempt (S p0 + i)))).
    { intros i Hi. specialize (H (S i)).
      replace (requests st1 + i)%nat with (requests st + S i)%nat by lia.
      replace (S p0 + i)%nat with (p0 + S i)%nat by lia.
      apply H. lia. }
    destruct e as [msg|].
    + destruct (IH (S p0) (Some msg) st1 Hrest) as [le [st' [Heq Hreq]]].
      exists le, st'. split; [exact Heq|lia].
    + destruct (IH (S p0) lastErr st1 Hrest) as [le [st' [Heq Hreq]]].
      exists le, st'. split; [exact Heq|lia].
Qed.

(** A round stops at the first relay that succeeds. *)
Lemma proxyLoop_first_success (attempt m : nat) :
  forall (p0 : nat) (lastErr : option string) (st : netState) (k : nat) (data : jsval),
    (k < m)%nat ->
    (forall i, (i < k)%nat ->
       softFail (network (requests st + i)
                         (proxyUrl encodeURIComponent url attempt (p0 + i)))) ->
    succeedsWith data (network (requests st + k)
                               (proxyUrl encodeURIComponent url attempt (p0 + k))) ->
    exists le st', ploop attempt (seq p0 m) lastErr st = (Some data, le, st').
Proof.
  induction m as [|m IH]; intros p0 lastErr st k data Hk Hfail Hok; [lia|].
  simpl seq. cbn [proxyLoop]. destruct k as [|k].
  - rewrite !Nat.add_0_r in Hok.
    pose proof (tryProxy_success attempt p0 st data Hok) as Hs.
    destruct (tryProxy encodeURIComponent JSON_parse network url onStatus label attempt p0 st)
      as [res st1].
    simpl in Hs. subst res. exists lastErr, st1. reflexivity.
  - assert (H0 : softFail (network (requests st)
                                   (proxyUrl encodeURIComponent url attempt p0))).
    { specialize (Hfail 0%nat). rewrite !Nat.add_0_r in Hfail. apply Hfail. lia. }
    step_tryProxy attempt p0 st H0 e He st1 Hr.
    assert (Hrest : forall i, (i < k)%nat ->
              softFail (network (requests st1 + i)
                                (proxyUrl encodeURIComponent url attempt (S p0 + i)))).
    { intros i Hi. specialize (Hfail (S i)).
      replace (requests st1 + i)%nat with (requests st + S i)%nat by lia.
      replace (S p0 + i)%nat with (p0 + S i)%nat by lia.
      apply Hfail. lia. }
    assert (Hok' : succeedsWith data
                     (network (requests st1 + k)
                              (proxyUrl encodeURIComponent url attempt (S p0 + k)))).
    { replace (requests st1 + k)%nat with (requests st + S k)%nat by lia.
      replace (S p0 + k)%nat with (p0 + S k)%nat by lia. exact Hok. }
    destruct e as [msg|].
    + apply (IH (S p0) (Some msg) st1 k data); [lia|exact Hrest|exact Hok'].
    + apply (IH (S p0) lastErr st1 k data); [lia|exact Hrest|exact Hok'].
Qed.

Lemma record_requests (e : event) (st : netState) : requests (record e st) = requests st.
Proof. reflexivity. Qed.

Lemma shift_round (i : nat) : ((i + 5) / 5 = S (i / 5) /\ (i + 5) mod 5 = i mod 5)%nat.
Proof.
  split.
  - replace (i + 5)%nat with (i + 1 * 5)%nat by lia.
    rewrite Nat.div_add by discriminate. lia.
  - replace (i + 5)%nat with (i + 1 * 5)%nat by lia.
    apply Nat.Div0.mod_add.
Qed.

Lemma answerFrom_round (a0 : nat) (st : netState) (i : nat) :
  (i < 5)%nat ->
  answerFrom a0 st i
  = network (requests st + i) (proxyUrl encodeURIComponent url a0 (0 + i)).
Proof.
  intro Hi. unfold answerFrom.
  rewrite Nat.div_small, Nat.mod_small, Nat.add_0_r by exact Hi. reflexivity.
Qed.

Lemma answerFrom_next (a0 : nat) (st st' : netState) (i : nat) :
  requests st' = (requests st + 5)%nat ->
  answerFrom (S a0) st' i = answerFrom a0 st (i + 5).
Proof.
  intro Hr. unfold answerFrom. destruct (shift_round i) as [-> ->]. rewrite Hr.
  f_equal; [lia|]. f_equal. lia.
Qed.

Lemma attemptLoop_all_fail (maxAttempts n : nat) :
  forall (a0 : nat) (lastErr : option string) (st : netState),
    (forall i, (i < n * 5)%nat -> softFail (answerFrom a0 st i)) ->
    exists m st',
      aloop maxAttempts (seq a0 n) lastErr st
      = (Thrown (label ++ " failed: " ++ m)%string, st').
Proof.
  induction n as [|n IH]; intros a0 lastErr st H.
  - eexists. eexists. reflexivity.
  - simpl seq. cbn [attemptLoop].
    change (List.length (proxyBuilders encodeURIComponent)) with 5%nat.
    destruct (proxyLoop_all_fail a0 5 0 lastErr st) as [le [st1 [Heq Hreq]]].
    { intros i Hi. rewrite <- answerFrom_round by exact Hi. apply H. lia. }
    rewrite Heq.
    apply IH. intros i Hi.
    rewrite (answerFrom_next a0 st).
    + apply H. lia.
    + destruct (a0 <? maxAttempts - 1)%nat; [rewrite record_requests|]; exact Hreq.
Qed.

Lemma attemptLoop_first_success (maxAttempts n : nat) :
  forall (a0 : nat) (lastErr : option string) (st : netState) (k : nat) (data : jsval),
    (k < n * 5)%nat ->
    (forall i, (i < k)%nat -> softFail (answerFrom a0 st i)) ->
    succeedsWith data (answerFrom a0 st k) ->
    exists st', aloop maxAttempts (seq a0 n) lastErr st = (Returned data, st').
Proof.
  induction n as [|n IH]; intros a0 lastErr st k data Hk Hfail Hok; [lia|].
  simpl seq. cbn [attemptLoop].
  change (List.length (proxyBuilders encodeURIComponent)) with 5%nat.
  destruct (Nat.lt_ge_cases k 5) as [Hlt|Hge].
  - destruct (proxyLoop_first_success a0 5 0 lastErr st k data Hlt)
      as [le [st1 Heq]].
    + intros i Hi. rewrite <- answerFrom_round by lia. apply Hfail. exact Hi.
    + rewrite <- answerFrom_round by exact Hlt. exact Hok.
    + rewrite Heq. exists st1. reflexivity.
  - destruct (proxyLoop_all_fail a0 5 0 lastErr st) as [le [st1 [Heq Hreq]]].
    { intros i Hi. rewrite <- answerFrom_round by exact Hi. apply Hfail. lia. }
    rewrite Heq.
    assert (Hnext : forall st2 i, requests st2 = requests st1 ->
                      answerFrom (S a0) st2 i = answerFrom a0 st (i + 5)).
    { intros st2 i Hst2. apply answerFrom_next. lia. }
    apply (IH (S a0) le _ (k - 5)%nat data).
    + lia.
    + intros i Hi. rewrite Hnext.
      * apply Hfail. lia.
      * destruct (a0 <? maxAttempts - 1)%nat; reflexivity.
    + rewrite Hnext.
      * replace (k - 5 + 5)%nat with k by lia. exact Hok.
      * destruct (a0 <? maxAttempts - 1)%nat; reflexivity.
Qed.

(** C8: counting the requests of one call from 0, request [i] goes through
    the relay at position [i mod 5] of round [i / 5].  If the first [k]
    requests soft-fail (transport error, non-success status, body shorter
    than 30 characters, or a body that does not parse) and request [k],
    still within the [maxAttempts * 5] requests of the budget, succeeds,
    the call returns the parsed body of that request; if every request of
    the budget soft-fails, the call throws one error whose message starts
    with the label. *)
Theorem fetchWithProxies_first_success_or_label (maxAttempts : nat) (st : netState) :
  (forall k data,
      (k < maxAttempts * 5)%nat ->
      (forall i, (i < k)%nat -> softFail (answerAt st i)) ->
      succeedsWith data (answerAt st k) ->
      fst (fetchWithProxies encodeURIComponent JSON_parse network url onStatus label
                            maxAttempts st)
      = Returned data)
  /\ ((forall i, (i < maxAttempts * 5)%nat -> softFail (answerAt st i)) ->
      exists m,
        fst (fetchWithProxies encodeURIComponent JSON_parse network url onStatus label
                              maxAttempts st)
        = Thrown (label ++ " failed: " ++ m)%string).
Proof.
  unfold fetchWithProxies. split.
  - intros k data Hk Hfail Hok.
    destruct (attemptLoop_first_success maxAttempts maxAttempts 0 None st k data Hk)
      as [st' Heq]; [exact Hfail|exact Hok|].
    rewrite Heq. reflexivity.
  - intro Hfail.
    destruct (attemptLoop_all_fail maxAttempts maxAttempts 0 None st Hfail)
      as [m [st' Heq]].
    exists m. rewrite Heq. reflexivity.
Qed.

End RelayFacts.

Lemma fetchWithProxies_first_success_or_label_witness :
  fst (fetchWithProxies (fun u => u) (fun text => Some (JStr text)) flakyNetwork
         "https://feed.example/chart" true "Fetching AAPL spot price" 3
         {| requests := 0; log := [] |})
  = Returned (JStr sampleBody).
Proof.
  apply (proj1 (fetchWithProxies_first_success_or_label
                  (fun u => u) (fun text => Some (JStr text)) flakyNetwork
                  "https://feed.example/chart" true "Fetching AAPL spot price" 3
                  {| requests := 0; log := [] |}) 3%nat (JStr sampleBody)).
  - simpl. lia.
  - intros i Hi. destruct i as [|[|[|i]]].
    + apply soft_transport.
    + apply soft_status.
    + apply soft_short. simpl. lia.
    + exfalso. lia.
  - exists sampleBody. split; [reflexivity|]. split; [|reflexivity].
    simpl. lia.
Defined.

(** Every relay rejects in every round: fifteen requests, two sleeps
    between the three rounds, and one error that carries the label and the
    last message. *)
Example scenario_all_relays_fail :
  fst (fetchWithProxies (fun u => u) (fun text => Some (JStr text))
         (fun _ _ => Rejected "network down")
         "https://feed.example/chart" false "Fetching AAPL spot price" 3
         {| requests := 0; log := [] |})
  = Thrown "Fetching AAPL spot price failed: network down"
  /\ requests (snd (fetchWithProxies (fun u => u) (fun text => Some (JStr text))
         (fun _ _ => Rejected "network down")
         "https://feed.example/chart" false "Fetching AAPL spot price" 3
         {| requests := 0; log := [] |})) = 15%nat
  /\ filter (fun e => match e with Sleep _ => true | _ => false end)
       (log (snd (fetchWithProxies (fun u => u) (fun text => Some (JStr text))
         (fun _ _ => Rejected "network down")
         "https://feed.example/chart" false "Fetching AAPL spot price" 3
         {| requests := 0; log := [] |})))
     = [Sleep 1500; Sleep 3000].
Proof. vm_compute. repeat split. Qed.

(** ** Spot price *)

Lemma validCloses_none (items : list jsval) :
  lastNonNull items = None -> validCloses items = [].
Proof.
  induction items as [|x rest IH]; simpl; intro H; [reflexivity|].
  destruct (lastNonNull rest); [discriminate|].
  destruct (JS.nullish x); [|discriminate]. simpl. apply IH. reflexivity.
Qed.

Lemma validCloses_last (items : list jsval) (v : jsval) :
  lastNonNull items = Some v ->
  (0 < List.length (validCloses items))%nat
  /\ List.last (validCloses items) JUndefined = v.
Proof.
  induction items as [|x rest IH]; simpl; intro H; [discriminate|].
  destruct (lastNonNull rest) as [w|] eqn:E.
  - injection H as ->. destruct (IH eq_refl) as [Hlen Hlast].
    destruct (JS.nullish x); simpl.
    + split; assumption.
    + split; [lia|].
      destruct (validCloses rest) as [|y ys]; [simpl in Hlen; lia|exact Hlast].
  - destruct (JS.nullish x); [discriminate|]. injection H as ->.
    simpl. rewrite (validCloses_none rest E). split; [simpl; lia|reflexivity].
Qed.

Lemma zero_is_falsy (q : Q) : q == 0 -> JS.truthy (JNum q) = false.
Proof.
  intro H. simpl. rewrite (Qeq_eq_bool _ _ H). reflexivity.
Qed.

Lemma spotOfData_meta (ticker : string) (data : jsval) :
  JS.truthy (chartResult data) = true ->
  JS.truthy (metaPrice (chartResult data)) = true ->
  spotOfData ticker data
  = Returned {| price := metaPrice (chartResult data);
                name := JS.or (JS.get "shortName" (JS.get "meta" (chartResult data)))
                              (JS.or (JS.get "symbol" (JS.get "meta" (chartResult data)))
                                     (JStr ticker)) |}.
Proof.
  intros Hres Hprice. unfold spotOfData. rewrite Hres, Hprice. reflexivity.
Qed.

Lemma spotOfData_fallback (ticker : string) (data v : jsval) :
  JS.truthy (chartResult data) = true ->
  JS.truthy (metaPrice (chartResult data)) = false ->
  lastClose (closesOf (chartResult data)) = Some v ->
  spotOfData ticker data = Returned {| price := v; name := JStr ticker |}.
Proof.
  intros Hres Hprice Hlast. unfold spotOfData. rewrite Hres, Hprice. simpl negb. cbv iota.
  destruct (closesOf (chartResult data)) as [| | | | |items|]; try discriminate.
  simpl in Hlast. simpl JS.truthy. cbv iota.
  destruct (validCloses_last items v Hlast) as [Hlen ->].
  apply Nat.ltb_lt in Hlen. rewrite Hlen. reflexivity.
Qed.

Lemma spotOfData_nothing (ticker : string) (data : jsval) :
  JS.truthy (chartResult data) = true ->
  JS.truthy (metaPrice (chartResult data)) = false ->
  lastClose (closesOf (chartResult data)) = None ->
  exists m, spotOfData ticker data = Thrown m.
Proof.
  intros Hres Hprice Hlast. unfold spotOfData. rewrite Hres, Hprice. simpl negb. cbv iota.
  destruct (JS.truthy (closesOf (chartResult data))); [|eexists; reflexivity].
  destruct (closesOf (chartResult data)) as [| | | | |items|];
    try (eexists; reflexivity).
  simpl in Hlast. rewrite (validCloses_none items Hlast). eexists. reflexivity.
Qed.

(** Where a returned price comes from: the metadata when its price is
    truthy, the close series otherwise. *)
Lemma spotOfData_price_origin (ticker : string) (data p nm : jsval) :
  spotOfData ticker data = Returned {| price := p; name := nm |} ->
  JS.truthy (chartResult data) = true
  /\ ((JS.truthy (metaPrice (chartResult data)) = true
       /\ p = metaPrice (chartResult data))
      \/ (JS.truthy (metaPrice (chartResult data)) = false
          /\ lastClose (closesOf (chartResult data)) = Some p
          /\ nm = JStr ticker)).
Proof.
  unfold spotOfData.
  destruct (JS.truthy (chartResult data)); simpl negb; cbv iota; [|discriminate].
  intro H. split; [reflexivity|].
  destruct (JS.truthy (metaPrice (chartResult data))).
  - left. injection H as <- _. split; reflexivity.
  - right. split; [reflexivity|].
    destruct (JS.truthy (closesOf (chartResult data))); [|discriminate].
    destruct (closesOf (chartResult data)) as [| | | | |items|]; try discriminate.
    simpl lastClose.
    destruct (0 <? List.length (validCloses items))%nat eqn:Hlen; [|discriminate].
    injection H as <- <-. split; [|reflexivity].
    destruct (lastNonNull items) as [v|] eqn:E.
    + destruct (validCloses_last items v E) as [_ ->]. reflexivity.
    + rewrite (validCloses_none items E) in Hlen. discriminate.
Qed.

(** A returned price that is the number 0 was read from the close series. *)
Lemma fetchSpotPrice_zero_from_closes
    (encodeURIComponent : string -> string) (JSON_parse : string -> option jsval)
    (network : nat -> string -> response)
    (ticker : string) (onStatus : bool) (nowMs : Z) (st : netState) (q : Q) (nm : jsval) :
  fst (fetchSpotPrice encodeURIComponent JSON_parse network ticker onStatus nowMs st)
  = Returned {| price := JNum q; name := nm |} ->
  q == 0 ->
  exists data,
    fst (fetchWithProxies encodeURIComponent JSON_parse network
           (spotUrl encodeURIComponent ticker nowMs) onStatus
           ("Fetching " ++ ticker ++ " spot price")%string 3 st)
    = Returned data
    /\ JS.truthy (metaPrice (chartResult data)) = false
    /\ lastClose (closesOf (chartResult data)) = Some (JNum q).
Proof.
  unfold fetchSpotPrice.
  destruct (fetchWithProxies encodeURIComponent JSON_parse network
              (spotUrl encodeURIComponent ticker nowMs) onStatus
              ("Fetching " ++ ticker ++ " spot price")%string 3 st) as [[data|m] st'];
    simpl fst; [|discriminate].
  intros H Hq. exists data. split; [reflexivity|].
  apply spotOfData_price_origin in H.
  destruct H as [_ [[Htrue Hp]|[Hfalse [Hlast _]]]].
  - rewrite <- Hp in Htrue. rewrite (zero_is_falsy q Hq) in Htrue. discriminate.
  - split; assumption.
Qed.

(** C9: when the relay fetch returned [data] with a chart result, and the
    result's [meta.regularMarketPrice] is falsy -- the number 0 in
    particular -- [fetchSpotPrice] does not return it: it returns the last
    close of the series that is neither null nor undefined, under the
    ticker as name, and fails when there is none.  A price taken from the
    metadata is therefore truthy, never the number 0. *)
Theorem fetchSpotPrice_zero_meta_falls_back
    (encodeURIComponent : string -> string) (JSON_parse : string -> option jsval)
    (network : nat -> string -> response)
    (ticker : string) (onStatus : bool) (nowMs : Z) (st : netState) (data : jsval) :
  fst (fetchWithProxies encodeURIComponent JSON_parse network
         (spotUrl encodeURIComponent ticker nowMs) onStatus
         ("Fetching " ++ ticker ++ " spot price")%string 3 st)
  = Returned data ->
  JS.truthy (chartResult data) = true ->
  (forall q, metaPrice (chartResult data) = JNum q -> q == 0 ->
             JS.truthy (metaPrice (chartResult data)) = false)
  /\ (JS.truthy (metaPrice (chartResult data)) = false ->
      (forall v, lastClose (closesOf (chartResult data)) = Some v ->
         fst (fetchSpotPrice encodeURIComponent JSON_parse network ticker onStatus nowMs st)
         = Returned {| price := v; name := JStr ticker |})
      /\ (lastClose (closesOf (chartResult data)) = None ->
          exists m,
            fst (fetchSpotPrice encodeURIComponent JSON_parse network ticker onStatus nowMs st)
            = Thrown m))
  /\ (JS.truthy (metaPrice (chartResult data)) = true ->
      exists nm,
        fst (fetchSpotPrice encodeURIComponent JSON_parse network ticker onStatus nowMs st)
        = Returned {| price := metaPrice (chartResult data); name := nm |}
        /\ forall q, metaPrice (chartResult data) = JNum q -> ~ q == 0).
Proof.
  intros Hfetch Hres.
  assert (Hspot : fst (fetchSpotPrice encodeURIComponent JSON_parse network ticker
                                      onStatus nowMs st)
                  = spotOfData ticker data).
  { unfold fetchSpotPrice.
    destruct (fetchWithProxies encodeURIComponent JSON_parse network
                (spotUrl encodeURIComponent ticker nowMs) onStatus
                ("Fetching " ++ ticker ++ " spot price")%string 3 st) as [[d|m] st'];
      simpl in Hfetch; [|discriminate].
    injection Hfetch as ->. reflexivity. }
  rewrite Hspot. split; [|split].
  - intros q -> Hq. apply zero_is_falsy. exact Hq.
  - intro Hprice. split.
    + intros v Hv. apply spotOfData_fallback; assumption.
    + intro Hnone. apply spotOfData_nothing; assumption.
  - intro Hprice. eexists. split.
    + apply spotOfData_meta; assumption.
    + intros q Hq Hz. rewrite Hq in Hprice.
      rewrite (zero_is_falsy q Hz) in Hprice. discriminate.
Qed.

Lemma fetchSpotPrice_zero_meta_falls_back_witness :
  fst (fetchSpotPrice (fun u => u) (fun _ => Some zeroMetaChart)
         (fun _ _ => Answered true sampleBody) "AAPL" false 1700000000000
         {| requests := 0; log := [] |})
  = Returned {| price := JNum (18744 # 100); name := JStr "AAPL" |}.
Proof.
  apply (fetchSpotPrice_zero_meta_falls_back
           (fun u => u) (fun _ => Some zeroMetaChart)
           (fun _ _ => Answered true sampleBody) "AAPL" false 1700000000000
           {| requests := 0; log := [] |} zeroMetaChart).
  - vm_compute. reflexivity.
  - vm_compute. reflexivity.
  - vm_compute. reflexivity.
  - vm_compute. reflexivity.
Defined.

(** * Further properties *)

(** ** The analyzed window *)

Lemma StronglySorted_skipn {A : Type} (R : A -> A -> Prop) (n : nat) (l : list A) :
  StronglySorted R l -> StronglySorted R (skipn n l).
Proof.
  revert l. induction n as [|n IH]; intros l Hs; [exact Hs|].
  destruct l as [|x l]; [constructor|].
  simpl. apply IH. inversion Hs. assumption.
Qed.

Lemma StronglySorted_firstn {A : Type} (R : A -> A -> Prop) (n : nat) (l : list A) :
  StronglySorted R l -> StronglySorted R (firstn n l).
Proof.
  revert l. induction n as [|n IH]; intros l Hs; [constructor|].
  destruct l as [|x l]; [constructor|].
  simpl. inversion Hs as [|? ? Hl Hall]; subst. constructor.
  - apply IH. exact Hl.
  - apply Forall_forall. intros y Hy. apply in_firstn in Hy.
    rewrite Forall_forall in Hall. apply Hall. exact Hy.
Qed.

Lemma StronglySorted_slice {A : Type} (R : A -> A -> Prop) (l : list A) (s e : Z) :
  StronglySorted R l -> StronglySorted R (JS.slice l s e).
Proof.
  intro Hs. unfold JS.slice. apply StronglySorted_firstn, StronglySorted_skipn. exact Hs.
Qed.

Lemma StronglySorted_map {A B : Type} (f : A -> B) (R : B -> B -> Prop) (l : list A) :
  StronglySorted (fun a b => R (f a) (f b)) l -> StronglySorted R (map f l).
Proof.
  intro Hs. induction Hs as [|a l Hs IH Hall]; simpl; constructor.
  - exact IH.
  - apply Forall_map. exact Hall.
Qed.

(** The analyzed contracts come out in ascending order of strike, whatever
    the order of the feed and whatever the window size. *)
Theorem analyze_output_ascending (calls : list RawOptionContract) (spotPrice : Q)
    (expiryTs numStrikes nowMs : Z) :
  StronglySorted Qle
    (map Opt.strike (analyzeCallOptions calls spotPrice expiryTs numStrikes nowMs)).
Proof.
  unfold analyzeCallOptions. rewrite map_map. simpl.
  apply StronglySorted_map with (f := Raw.strike).
  unfold selectWindow. apply StronglySorted_slice. apply sortByStrike_sorted.
Qed.

Lemma windowSpec_has_atm (sorted : list RawOptionContract) (atmIdx h : nat)
    (ca : RawOptionContract) :
  nth_error sorted atmIdx = Some ca -> In ca (windowSpec sorted atmIdx h).
Proof.
  intro Hnth. unfold windowSpec.
  assert (Hlen : (atmIdx < List.length sorted)%nat).
  { apply nth_error_Some. rewrite Hnth. discriminate. }
  apply nth_error_In with (n := (atmIdx - (atmIdx - h))%nat).
  rewrite nth_error_firstn.
  replace (atmIdx - (atmIdx - h) <?
           Nat.min (List.length sorted) (atmIdx + h + 1) - (atmIdx - h))%nat
    with true by (symmetry; apply Nat.ltb_lt; lia).
  rewrite nth_error_skipn.
  replace (atmIdx - h + (atmIdx - (atmIdx - h)))%nat with atmIdx by lia.
  exact Hnth.
Qed.

Lemma analyze_as_window (calls : list RawOptionContract) (spotPrice : Q)
    (expiryTs numStrikes nowMs : Z) :
  (0 <= numStrikes)%Z ->
  analyzeCallOptions calls spotPrice expiryTs numStrikes nowMs
  = map (analyzeOne spotPrice (daysUntilExpiry expiryTs nowMs)
           (strikeIncrement (sortByStrike calls)
              (atmIndex spotPrice (sortByStrike calls))))
        (windowSpec (sortByStrike calls) (atmIndex spotPrice (sortByStrike calls))
                    (Z.to_nat numStrikes)).
Proof.
  intro Hn. unfold analyzeCallOptions.
  rewrite selectWindow_firstn_skipn by (try exact Hn; apply atmIndex_le_length).
  reflexivity.
Qed.

(** With at least one contract and a window size that is not negative, the
    output is not empty: it holds a contract whose strike is at least as
    close to the spot price as the strike of every contract of the feed. *)
Theorem analyze_keeps_nearest_strike (calls : list RawOptionContract) (spotPrice : Q)
    (expiryTs numStrikes nowMs : Z) :
  calls <> [] -> (0 <= numStrikes)%Z ->
  exists o,
    In o (analyzeCallOptions calls spotPrice expiryTs numStrikes nowMs)
    /\ forall c, In c calls ->
         Qabs (Opt.strike o - spotPrice) <= Qabs (Raw.strike c - spotPrice).
Proof.
  intros Hne Hn.
  pose proof (sortByStrike_perm calls) as Hperm.
  rewrite (analyze_as_window calls spotPrice expiryTs numStrikes nowMs Hn).
  destruct (sortByStrike calls) as [|c0 rest] eqn:Hsorted.
  { apply Permutation_nil in Hperm. contradiction. }
  destruct (atmIndex_first_min spotPrice (c0 :: rest) 0%nat c0 eq_refl) as [ca [Hca _]].
  exists (analyzeOne spotPrice (daysUntilExpiry expiryTs nowMs)
            (strikeIncrement (c0 :: rest) (atmIndex spotPrice (c0 :: rest))) ca).
  split.
  - apply in_map. apply windowSpec_has_atm. exact Hca.
  - intros c Hc. simpl Opt.strike.
    apply (Permutation_in c (Permutation_sym Hperm)) in Hc.
    apply In_nth_error in Hc. destruct Hc as [j Hj].
    destruct (atmIndex_first_min spotPrice (c0 :: rest) j c Hj) as [ca' [Hca' [Hle _]]].
    rewrite Hca in Hca'. injection Hca' as <-. exact Hle.
Qed.

Lemma analyze_keeps_nearest_strike_witness :
  exists o,
    In o (analyzeCallOptions [callAt 110; callAt 100; callAt 105] 104 1700000000 0
                             1700000000000)
    /\ forall c, In c [callAt 110; callAt 100; callAt 105] ->
         Qabs (Opt.strike o - 104) <= Qabs (Raw.strike c - 104).
Proof.
  apply (analyze_keeps_nearest_strike [callAt 110; callAt 100; callAt 105] 104
                                      1700000000 0 1700000000000).
  - discriminate.
  - vm_compute. discriminate.
Defined.

(** A property of the arrow function holds of every analyzed contract. *)
Lemma analyze_Forall (P : AnalyzedOption -> Prop) (calls : list RawOptionContract)
    (spotPrice : Q) (expiryTs numStrikes nowMs : Z) :
  (forall c, In c calls ->
     P (analyzeOne spotPrice (daysUntilExpiry expiryTs nowMs)
          (strikeIncrement (sortByStrike calls) (atmIndex spotPrice (sortByStrike calls)))
          c)) ->
  Forall P (analyzeCallOptions calls spotPrice expiryTs numStrikes nowMs).
Proof.
  intro H. apply Forall_forall. intros o Ho.
  apply analyze_from_calls in Ho. destruct Ho as [c [Hc ->]]. apply H. exact Hc.
Qed.

(** The extrinsic value of an analyzed contract is positive exactly when
    the mid price is above the intrinsic value, and never exceeds the mid
    price (or 0 for a negative mid).  For a contract struck at or above
    the spot price the intrinsic value is 0 and the extrinsic value is the
    whole mid price. *)
Theorem analyze_extrinsic_sign (calls : list RawOptionContract) (spotPrice : Q)
    (expiryTs numStrikes nowMs : Z) :
  Forall (fun o =>
            (0 < Opt.extrinsic o <-> Opt.intrinsic o < Opt.mid o)
            /\ Opt.extrinsic o <= Qmax 0 (Opt.mid o)
            /\ (spotPrice <= Opt.strike o ->
                Opt.intrinsic o == 0 /\ Opt.extrinsic o == Qmax 0 (Opt.mid o)))
         (analyzeCallOptions calls spotPrice expiryTs numStrikes nowMs).
Proof.
  apply analyze_Forall. intros c _. simpl.
  set (m := midPrice c).
  set (i := Qmax 0 (spotPrice - Raw.strike c)).
  assert (Hi : 0 <= i) by apply Q.le_max_l.
  destruct (Q.max_spec 0 (m - i)) as [[He1 He2]|[He1 He2]];
    destruct (Q.max_spec 0 m) as [[Hm1 Hm2]|[Hm1 Hm2]];
    rewrite He2, Hm2.
  - split; [split; intro; lra|]. split; [lra|]. intro Hotm.
    assert (Hz : i == 0).
    { unfold i. destruct (Q.max_spec 0 (spotPrice - Raw.strike c)) as [[H1 H2]|[H1 H2]];
        rewrite H2; lra. }
    split; [exact Hz|lra].
  - lra.
  - split; [split; intro; lra|]. split; [lra|]. intro Hotm.
    assert (Hz : i == 0).
    { unfold i. destruct (Q.max_spec 0 (spotPrice - Raw.strike c)) as [[H1 H2]|[H1 H2]];
        rewrite H2; lra. }
    split; [exact Hz|lra].
  - split; [split; intro; lra|]. split; [lra|]. intro Hotm.
    assert (Hz : i == 0).
    { unfold i. destruct (Q.max_spec 0 (spotPrice - Raw.strike c)) as [[H1 H2]|[H1 H2]];
        rewrite H2; lra. }
    split; [exact Hz|lra].
Qed.

Lemma Qdiv_by_days (x : Q) (d : Z) :
  (1 <= d)%Z -> 0 <= x -> 0 <= x / inject_Z d /\ x / inject_Z d <= x.
Proof.
  intros Hd Hx.
  assert (Hd1 : 1 <= inject_Z d) by (rewrite Zle_Qle in Hd; exact Hd).
  assert (Hpos : 0 < inject_Z d) by lra.
  assert (Hnz : ~ inject_Z d == 0) by lra.
  assert (Hq : 0 <= x / inject_Z d).
  { unfold Qdiv. apply Qmult_le_0_compat; [exact Hx|].
    apply Qlt_le_weak. apply Qinv_lt_0_compat. exact Hpos. }
  split; [exact Hq|].
  assert (Hback : x / inject_Z d * inject_Z d == x) by (field; exact Hnz).
  assert (Hgap : 0 <= x / inject_Z d * (inject_Z d - 1)).
  { apply Qmult_le_0_compat; [exact Hq|lra]. }
  assert (Hexp : x / inject_Z d * (inject_Z d - 1)
                 == x / inject_Z d * inject_Z d - x / inject_Z d) by ring.
  lra.
Qed.

(** Every analyzed contract carries the same days to expiry, at least 1;
    its extrinsic value per day lies between 0 and the extrinsic value, and
    is the fallback score. *)
Theorem analyze_per_day_bounds (calls : list RawOptionContract) (spotPrice : Q)
    (expiryTs numStrikes nowMs : Z) :
  Forall (fun o =>
            Opt.dte o = daysUntilExpiry expiryTs nowMs
            /\ (1 <= Opt.dte o)%Z
            /\ 0 <= Opt.extrinsicPerDTE o
            /\ Opt.extrinsicPerDTE o <= Opt.extrinsic o
            /\ Opt.fallbackScore o = Opt.extrinsicPerDTE o)
         (analyzeCallOptions calls spotPrice expiryTs numStrikes nowMs).
Proof.
  apply analyze_Forall. intros c _. simpl.
  pose proof (daysUntilExpiry_ge_1 expiryTs nowMs) as Hd.
  destruct (Qdiv_by_days (Qmax 0 (midPrice c - Qmax 0 (spotPrice - Raw.strike c)))
                         (daysUntilExpiry expiryTs nowMs) Hd (Q.le_max_l _ _))
    as [H0 H1].
  repeat split; assumption.
Qed.

(** The efficiency score of an analyzed contract is present exactly when
    its delta is a number of absolute value above 0.01; it is then the
    extrinsic value per day divided by |delta|, is not negative, and is at
    least the fallback score when |delta| <= 1. *)
Theorem analyze_efficiency_score (calls : list RawOptionContract) (spotPrice : Q)
    (expiryTs numStrikes nowMs : Z) :
  Forall (fun o =>
            match Opt.delta o with
            | Some d =>
                (1 # 100 < Qabs d ->
                 Opt.efficiencyScore o = Some (Opt.extrinsicPerDTE o / Qabs d)
                 /\ 0 <= Opt.extrinsicPerDTE o / Qabs d
                 /\ (Qabs d <= 1 ->
                     Opt.fallbackScore o <= Opt.extrinsicPerDTE o / Qabs d))
                /\ (Qabs d <= 1 # 100 -> Opt.efficiencyScore o = None)
            | None => Opt.efficiencyScore o = None
            end)
         (analyzeCallOptions calls spotPrice expiryTs numStrikes nowMs).
Proof.
  apply analyze_Forall. intros c _. simpl.
  pose proof (daysUntilExpiry_ge_1 expiryTs nowMs) as Hd.
  destruct (Qdiv_by_days (Qmax 0 (midPrice c - Qmax 0 (spotPrice - Raw.strike c)))
                         (daysUntilExpiry expiryTs nowMs) Hd (Q.le_max_l _ _))
    as [H0 _].
  set (epd := Qmax 0 (midPrice c - Qmax 0 (spotPrice - Raw.strike c))
              / inject_Z (daysUntilExpiry expiryTs nowMs)) in *.
  destruct (JS.numberOrNull (Raw.delta c)) as [d|]; simpl; [|reflexivity].
  destruct (JS.Qltb (1 # 100) (Qabs d)) eqn:E.
  - apply Qltb_lt in E. split; [|intro Hle; lra].
    intros _.
    assert (Hnz : ~ Qabs d == 0) by lra.
    assert (Hback : epd / Qabs d * Qabs d == epd) by (field; exact Hnz).
    assert (He : 0 <= epd / Qabs d).
    { unfold Qdiv. apply Qmult_le_0_compat; [exact H0|].
      apply Qlt_le_weak. apply Qinv_lt_0_compat. lra. }
    split; [reflexivity|]. split; [exact He|].
    intro Hle1.
    assert (Hgap : 0 <= epd / Qabs d * (1 - Qabs d)).
    { apply Qmult_le_0_compat; [exact He|lra]. }
    assert (Hexp : epd / Qabs d * (1 - Qabs d)
                   == epd / Qabs d - epd / Qabs d * Qabs d) by ring.
    lra.
  - apply Qltb_ge in E. split; [intro Hlt; lra|]. intros _. reflexivity.
Qed.

Lemma strikeIncrement_nonneg (sorted : list RawOptionContract) (atmIdx : nat) :
  StronglySorted (fun a b => Raw.strike a <= Raw.strike b) sorted ->
  0 <= strikeIncrement sorted atmIdx.
Proof.
  intro Hs. unfold strikeIncrement.
  destruct (1 <? List.length sorted)%nat; [|lra].
  pose proof (StronglySorted_slice _ sorted
                (Z.max 0 (Z.of_nat atmIdx - 1))
                (Z.min (Z.of_nat (List.length sorted)) (Z.of_nat atmIdx + 2)) Hs) as Hn.
  destruct (JS.slice sorted _ _) as [|n0 [|n1 rest]]; try lra.
  inversion Hn as [|? ? _ Hall]; subst.
  inversion Hall as [|? ? Hle _]; subst. lra.
Qed.

Lemma analyzeOne_moneyness (spotPrice : Q) (dte : Z) (increment : Q)
    (c : RawOptionContract) :
  Opt.moneyness (analyzeOne spotPrice dte increment c)
  = if Qle_bool (Qabs (Raw.strike c - spotPrice)) (increment * (6 # 10)) then ATM
    else if JS.Qltb (Raw.strike c) spotPrice then ITM else OTM.
Proof. reflexivity. Qed.

Lemma analyzeOne_strike (spotPrice : Q) (dte : Z) (increment : Q)
    (c : RawOptionContract) :
  Opt.strike (analyzeOne spotPrice dte increment c) = Raw.strike c.
Proof. reflexivity. Qed.

(** The moneyness label agrees with the side of the spot price: a contract
    labelled ITM has its strike below the spot price, one labelled OTM has
    it above, and a contract struck exactly at the spot price is ATM.  The
    strike increment the label depends on is never negative. *)
Theorem analyze_moneyness_sides (calls : list RawOptionContract) (spotPrice : Q)
    (expiryTs numStrikes nowMs : Z) :
  0 <= strikeIncrement (sortByStrike calls) (atmIndex spotPrice (sortByStrike calls))
  /\ Forall (fun o =>
               (Opt.moneyness o = ITM -> Opt.strike o < spotPrice)
               /\ (Opt.moneyness o = OTM -> spotPrice < Opt.strike o)
               /\ (Opt.strike o == spotPrice -> Opt.moneyness o = ATM))
            (analyzeCallOptions calls spotPrice expiryTs numStrikes nowMs).
Proof.
  pose proof (strikeIncrement_nonneg (sortByStrike calls)
                (atmIndex spotPrice (sortByStrike calls)) (sortByStrike_sorted calls))
    as Hinc.
  split; [exact Hinc|].
  apply analyze_Forall. intros c _.
  rewrite analyzeOne_moneyness, analyzeOne_strike.
  set (inc := strikeIncrement (sortByStrike calls)
                (atmIndex spotPrice (sortByStrike calls))) in *.
  destruct (Qle_bool (Qabs (Raw.strike c - spotPrice)) (inc * (6 # 10))) eqn:Eatm.
  - repeat split; intro H; try discriminate; reflexivity.
  - apply Qle_bool_gt in Eatm.
    assert (Hne : ~ Raw.strike c == spotPrice).
    { intro Heq.
      assert (Hz : Qabs (Raw.strike c - spotPrice) <= inc * (6 # 10)).
      { apply Qabs_Qle_condition. lra. }
      lra. }
    destruct (JS.Qltb (Raw.strike c) spotPrice) eqn:Eitm.
    + apply Qltb_lt in Eitm.
      repeat split; intro H; try discriminate; [exact Eitm|contradiction].
    + apply Qltb_ge in Eitm.
      repeat split; intro H; try discriminate; [|contradiction].
      destruct (Qlt_le_dec spotPrice (Raw.strike c)) as [Hlt|Hle]; [exact Hlt|].
      exfalso. apply Hne. lra.
Qed.

(** ** Analysis followed by ranking *)

(** Ranking the analyzed contracts keeps only contracts whose mid price
    exceeds the intrinsic value by more than 0.01; in particular a
    contract without a positive price is never ranked. *)
Theorem ranked_trade_above_intrinsic (calls : list RawOptionContract) (spotPrice : Q)
    (expiryTs numStrikes nowMs : Z) :
  Forall (fun r =>
            1 # 100 < Opt.mid (contract r) - Opt.intrinsic (contract r)
            /\ 1 # 100 < Opt.mid (contract r))
         (rankByEfficiency
            (analyzeCallOptions calls spotPrice expiryTs numStrikes nowMs)).
Proof.
  apply Forall_forall. intros r Hr.
  assert (Hin : In (contract r)
                   (filter isRankable
                      (analyzeCallOptions calls spotPrice expiryTs numStrikes nowMs))).
  { apply (Permutation_in _ (rankByEfficiency_perm _)). apply in_map. exact Hr. }
  apply filter_In in Hin. destruct Hin as [Ho Hrk].
  apply analyze_from_calls in Ho. destruct Ho as [c [_ Heq]].
  rewrite Heq in *. unfold isRankable in Hrk. apply Qltb_lt in Hrk.
  simpl in *.
  apply Q.max_lt_iff in Hrk. destruct Hrk as [Hrk|Hrk]; [lra|].
  split; [exact Hrk|].
  pose proof (Q.le_max_l 0 (spotPrice - Raw.strike c)). lra.
Qed.

(** ** The strike window size *)

Lemma nStrikes_range (parsed : option Z) : (3 <= nStrikes parsed <= 20)%Z.
Proof. unfold nStrikes. lia. Qed.

(** Whatever the text field holds, the window size handed to the analyzer
    lies in 3..20: a number in that range is taken as it is, while 0 and
    text that is not a number both give 10.  The analysis therefore never
    shows more than 41 contracts. *)
Theorem nStrikes_clamped (parsed : option Z) (calls : list RawOptionContract)
    (spotPrice : Q) (expiryTs nowMs : Z) :
  (3 <= nStrikes parsed <= 20)%Z
  /\ (forall n, parsed = Some n -> (3 <= n <= 20)%Z -> nStrikes parsed = n)
  /\ nStrikes (Some 0%Z) = nStrikes None
  /\ nStrikes None = 10%Z
  /\ (List.length (analyzeCallOptions calls spotPrice expiryTs (nStrikes parsed) nowMs)
      <= 41)%nat.
Proof.
  pose proof (nStrikes_range parsed) as Hr.
  split; [exact Hr|]. split.
  { intros n -> Hn. unfold nStrikes.
    destruct (Z.eqb_spec n 0); lia. }
  split; [reflexivity|]. split; [reflexivity|].
  rewrite analyze_as_window by lia. rewrite length_map.
  pose proof (windowSpec_length (sortByStrike calls)
                (atmIndex spotPrice (sortByStrike calls)) (Z.to_nat (nStrikes parsed))).
  lia.
Qed.

(** ** Days to expiry as a ceiling *)

(** The days to expiry cover the time that remains: [dte] days are at
    least the remaining seconds, and when [dte] exceeds 1 one day fewer
    would not be.  A later expiration never has fewer days, and a later
    clock reading never gives more. *)
Theorem daysUntilExpiry_covers_remaining (expiryTs nowMs : Z) :
  inject_Z expiryTs - inject_Z nowMs / 1000
  <= 86400 * inject_Z (daysUntilExpiry expiryTs nowMs)
  /\ ((1 < daysUntilExpiry expiryTs nowMs)%Z ->
      86400 * inject_Z (daysUntilExpiry expiryTs nowMs - 1)
      < inject_Z expiryTs - inject_Z nowMs / 1000)
  /\ (forall later, (expiryTs <= later)%Z ->
        (daysUntilExpiry expiryTs nowMs <= daysUntilExpiry later nowMs)%Z)
  /\ (forall laterMs, (nowMs <= laterMs)%Z ->
        (daysUntilExpiry expiryTs laterMs <= daysUntilExpiry expiryTs nowMs)%Z).
Proof.
  unfold daysUntilExpiry.
  set (rem := inject_Z expiryTs - inject_Z nowMs / 1000).
  pose proof (Qle_ceiling (rem / 86400)) as Hup.
  pose proof (Qceiling_lt (rem / 86400)) as Hlow.
  assert (Hrem : rem == rem / 86400 * 86400) by (field; discriminate).
  assert (Hmono : forall x y, x <= y -> x / 86400 <= y / 86400).
  { intros x y Hxy. unfold Qdiv. apply Qmult_le_compat_r; [exact Hxy|discriminate]. }
  split; [|split; [|split]].
  - assert (Hmax : inject_Z (Qceiling (rem / 86400))
                   <= inject_Z (Z.max 1 (Qceiling (rem / 86400)))).
    { rewrite <- Zle_Qle. lia. }
    lra.
  - intro Hgt.
    replace (Z.max 1 (Qceiling (rem / 86400))) with (Qceiling (rem / 86400)) by lia.
    lra.
  - intros later Hlater.
    apply Z.max_le_compat_l. apply Qceiling_resp_le. apply Hmono.
    rewrite Zle_Qle in Hlater. unfold rem. lra.
  - intros laterMs Hlater.
    apply Z.max_le_compat_l. apply Qceiling_resp_le. apply Hmono.
    rewrite Zle_Qle in Hlater. unfold rem.
    assert (Hms : inject_Z nowMs / 1000 <= inject_Z laterMs / 1000).
    { unfold Qdiv. apply Qmult_le_compat_r; [exact Hlater|discriminate]. }
    lra.
Qed.

Lemma daysUntilExpiry_covers_remaining_witness :
  86400 * inject_Z (daysUntilExpiry 1700200000 1700000000000 - 1)
  < inject_Z 1700200000 - inject_Z 1700000000000 / 1000.
Proof.
  apply (daysUntilExpiry_covers_remaining 1700200000 1700000000000).
  vm_compute. reflexivity.
Defined.

(** ** The order of the ranking *)

Lemma StronglySorted_restrict {A : Type} (R R' : A -> A -> Prop) (P : A -> Prop)
    (l : list A) :
  (forall a b, P a -> P b -> R a b -> R' a b) ->
  Forall P l -> StronglySorted R l -> StronglySorted R' l.
Proof.
  intros Himp HP Hs. induction Hs as [|a l Hs IH Hall]; constructor.
  - apply IH. inversion HP. assumption.
  - inversion HP as [|? ? Pa Pl]; subst.
    rewrite Forall_forall in *. intros b Hb. apply Himp; auto.
Qed.

Lemma StronglySorted_append {A : Type} (R : A -> A -> Prop) (l1 l2 : list A) :
  StronglySorted R l1 -> StronglySorted R l2 ->
  (forall a b, In a l1 -> In b l2 -> R a b) ->
  StronglySorted R (l1 ++ l2).
Proof.
  intros H1 H2 Hcross. induction H1 as [|a l1 H1 IH Hall]; simpl; [exact H2|].
  constructor.
  - apply IH. intros x y Hx Hy. apply Hcross; [right; exact Hx|exact Hy].
  - apply Forall_app. split; [exact Hall|].
    apply Forall_forall. intros b Hb. apply Hcross; [left; reflexivity|exact Hb].
Qed.

Lemma StronglySorted_nth {A : Type} (R : A -> A -> Prop) (l : list A) :
  StronglySorted R l ->
  forall i j a b, (i < j)%nat -> nth_error l i = Some a -> nth_error l j = Some b -> R a b.
Proof.
  intro Hs. induction Hs as [|x l Hs IH Hall]; intros i j a b Hij Hi Hj.
  - destruct i; discriminate.
  - destruct j as [|j]; [lia|]. simpl in Hj. destruct i as [|i]; simpl in Hi.
    + injection Hi as <-. rewrite Forall_forall in Hall.
      apply Hall. apply (nth_error_In _ _ Hj).
    + apply (IH i j); [lia|exact Hi|exact Hj].
Qed.

Lemma sorted_filter_all (p : AnalyzedOption -> bool) (cmp : AnalyzedOption -> AnalyzedOption -> Q)
    (l : list AnalyzedOption) :
  Forall (fun o => p o = true) (JS.sort cmp (filter p l)).
Proof.
  apply Forall_forall. intros o Ho.
  apply (Permutation_in o (sort_perm cmp (filter p l))) in Ho.
  apply filter_In in Ho. apply Ho.
Qed.

Lemma no_score_unscored (l : list AnalyzedOption) :
  existsb hasScore l = false -> Forall (fun o => isScored o = false) l.
Proof.
  intro H. apply Forall_forall. intros o Ho.
  destruct (isScored o) eqn:E; [|reflexivity].
  assert (Hex : existsb hasScore l = true).
  { apply existsb_exists. exists o. split; [exact Ho|].
    unfold isScored in E. unfold hasScore.
    destruct (Opt.efficiencyScore o); [reflexivity|discriminate]. }
  congruence.
Qed.

Lemma rankSpec_order (options : list AnalyzedOption) :
  StronglySorted rankOrder (map contract (rankSpec options)).
Proof.
  unfold rankSpec. destruct (existsb hasScore (filter isRankable options)) eqn:Hs;
    rewrite assignRanks_contract.
  - pose proof (sorted_filter_all isScored byEfficiencyDesc (filter isRankable options))
      as Hsc.
    pose proof (sorted_filter_all isUnscored byFallbackDesc (filter isRankable options))
      as Hun.
    apply StronglySorted_append.
    + apply StronglySorted_restrict
        with (R := fun a b => JS.toNumber (Opt.efficiencyScore b)
                              <= JS.toNumber (Opt.efficiencyScore a))
             (P := fun o => isScored o = true).
      * intros a b Ha Hb Hle. right. left. repeat split; assumption.
      * exact Hsc.
      * apply sort_byEfficiency_desc.
    + apply StronglySorted_restrict
        with (R := fun a b => Opt.fallbackScore b <= Opt.fallbackScore a)
             (P := fun o => isUnscored o = true).
      * intros a b Ha Hb Hle. rewrite isUnscored_negb, negb_true_iff in Ha, Hb.
        right. right. repeat split; assumption.
      * exact Hun.
      * apply sort_byFallback_desc.
    + intros a b Ha Hb. rewrite Forall_forall in Hsc, Hun.
      specialize (Hsc a Ha). specialize (Hun b Hb).
      rewrite isUnscored_negb, negb_true_iff in Hun. left. split; assumption.
  - apply StronglySorted_restrict
      with (R := fun a b => Opt.fallbackScore b <= Opt.fallbackScore a)
           (P := fun o => isScored o = false).
    + intros a b Ha Hb Hle. right. right. repeat split; assumption.
    + apply Forall_forall. intros o Ho.
      apply (Permutation_in o (sort_perm _ _)) in Ho.
      pose proof (no_score_unscored _ Hs) as Hall. rewrite Forall_forall in Hall.
      apply Hall. exact Ho.
    + apply sort_byFallback_desc.
Qed.

Lemma mapiFrom_nth (i0 : nat) (l : list AnalyzedOption) (r : RankedOption) :
  In r (JS.mapiFrom (fun o i => {| contract := o; rank := (i + 1)%nat |}) i0 l) ->
  (i0 + 1 <= rank r)%nat /\ nth_error l (rank r - 1 - i0) = Some (contract r).
Proof.
  revert i0. induction l as [|o l IH]; intros i0 Hr; simpl in Hr; [contradiction|].
  destruct Hr as [<-|Hr]; simpl.
  - split; [lia|]. replace (i0 + 1 - 1 - i0)%nat with 0%nat by lia. reflexivity.
  - destruct (IH (S i0) Hr) as [Hge Hnth]. split; [lia|].
    replace (rank r - 1 - i0)%nat with (S (rank r - 1 - S i0)) by lia.
    exact Hnth.
Qed.

Lemma assignRanks_position (l : list AnalyzedOption) (r : RankedOption) :
  In r (assignRanks l) ->
  (1 <= rank r)%nat /\ nth_error l (rank r - 1) = Some (contract r).
Proof.
  intro Hr. apply (mapiFrom_nth 0) in Hr. rewrite Nat.sub_0_r in Hr. exact Hr.
Qed.

Lemma rankByEfficiency_position (options : list AnalyzedOption) (r : RankedOption) :
  In r (rankByEfficiency options) ->
  (1 <= rank r)%nat
  /\ nth_error (map contract (rankByEfficiency options)) (rank r - 1) = Some (contract r).
Proof.
  unfold rankByEfficiency.
  destruct (existsb hasScore options); rewrite assignRanks_contract;
    apply assignRanks_position.
Qed.

(** The ranking is ordered: a scored contract (efficiency score present
    and positive) stands before every unscored one, scored contracts are in
    descending efficiency score and unscored ones in descending fallback
    score.  In terms of ranks: a lower rank is never worse in that order,
    and a scored contract always has a lower rank than an unscored one. *)
Theorem rank_order (options : list AnalyzedOption) :
  StronglySorted rankOrder (map contract (rankByEfficiency options))
  /\ (forall r1 r2,
        In r1 (rankByEfficiency options) -> In r2 (rankByEfficiency options) ->
        (rank r1 < rank r2)%nat -> rankOrder (contract r1) (contract r2))
  /\ (forall r1 r2,
        In r1 (rankByEfficiency options) -> In r2 (rankByEfficiency options) ->
        isScored (contract r1) = true -> isScored (contract r2) = false ->
        (rank r1 < rank r2)%nat).
Proof.
  assert (Hs : StronglySorted rankOrder (map contract (rankByEfficiency options))).
  { rewrite rankByEfficiency_rankSpec. apply rankSpec_order. }
  assert (Hlt : forall r1 r2,
             In r1 (rankByEfficiency options) -> In r2 (rankByEfficiency options) ->
             (rank r1 < rank r2)%nat -> rankOrder (contract r1) (contract r2)).
  { intros r1 r2 H1 H2 Hlt.
    destruct (rankByEfficiency_position options r1 H1) as [Hp1 Hn1].
    destruct (rankByEfficiency_position options r2 H2) as [Hp2 Hn2].
    apply (StronglySorted_nth _ _ Hs (rank r1 - 1) (rank r2 - 1)); [lia|assumption..]. }
  split; [exact Hs|]. split; [exact Hlt|].
  intros r1 r2 H1 H2 Hsc Hun.
  destruct (Nat.lt_trichotomy (rank r1) (rank r2)) as [Hc|[Hc|Hc]]; [exact Hc| |].
  - exfalso.
    destruct (rankByEfficiency_position options r1 H1) as [_ Hn1].
    destruct (rankByEfficiency_position options r2 H2) as [_ Hn2].
    rewrite Hc in Hn1. rewrite Hn1 in Hn2. injection Hn2 as Heq.
    rewrite Heq in Hsc. congruence.
  - exfalso. destruct (Hlt r2 r1 H2 H1 Hc) as [[Ha _]|[[Ha _]|[_ [Hb _]]]]; congruence.
Qed.

(** ** Ranking twice *)

Lemma insert_head {A : Type} (cmp : A -> A -> Q) (x : A) (l : list A) :
  HdRel (before cmp) x l -> JS.insert cmp x l = x :: l.
Proof.
  intro H. destruct l as [|y ys]; [reflexivity|]. simpl.
  inversion H as [|? ? Hxy]; subst. unfold before in Hxy.
  apply Qle_bool_iff in Hxy. rewrite Hxy. reflexivity.
Qed.

Lemma sort_of_sorted {A : Type} (cmp : A -> A -> Q) (l : list A) :
  Sorted (before cmp) l -> JS.sort cmp l = l.
Proof.
  intro Hs. induction Hs as [|x l Hs IH Hhd]; simpl; [reflexivity|].
  rewrite IH. apply insert_head. exact Hhd.
Qed.

Lemma sort_twice {A : Type} (cmp : A -> A -> Q) (l : list A) :
  (forall a b, 0 < cmp a b -> cmp b a <= 0) ->
  JS.sort cmp (JS.sort cmp l) = JS.sort cmp l.
Proof.
  intro Hflip. apply sort_of_sorted. apply sort_sorted. exact Hflip.
Qed.

Lemma filter_all_true {A : Type} (p : A -> bool) (l : list A) :
  Forall (fun x => p x = true) l -> filter p l = l.
Proof.
  intro H. induction H as [|x l Hx _ IH]; simpl; [reflexivity|].
  rewrite Hx, IH. reflexivity.
Qed.

Lemma filter_all_false {A : Type} (p : A -> bool) (l : list A) :
  Forall (fun x => p x = false) l -> filter p l = [].
Proof.
  intro H. induction H as [|x l Hx _ IH]; simpl; [reflexivity|].
  rewrite Hx, IH. reflexivity.
Qed.

Lemma existsb_perm {A : Type} (p : A -> bool) (l l' : list A) :
  Permutation l l' -> existsb p l = existsb p l'.
Proof.
  intro H. induction H; simpl.
  - reflexivity.
  - rewrite IHPermutation. reflexivity.
  - destruct (p x), (p y); reflexivity.
  - congruence.
Qed.

Lemma byEfficiencyDesc_flip (a b : AnalyzedOption) :
  0 < byEfficiencyDesc a b -> byEfficiencyDesc b a <= 0.
Proof. unfold byEfficiencyDesc. intro H. lra. Qed.

Lemma byFallbackDesc_flip (a b : AnalyzedOption) :
  0 < byFallbackDesc a b -> byFallbackDesc b a <= 0.
Proof. unfold byFallbackDesc. intro H. lra. Qed.

Lemma rankSpec_fixed (options : list AnalyzedOption) :
  rankSpec (map contract (rankSpec options)) = rankSpec options.
Proof.
  unfold rankSpec at 2.
  destruct (existsb hasScore (filter isRankable options)) eqn:Hs;
    rewrite assignRanks_contract; unfold rankSpec.
  - set (rk := filter isRankable options) in *.
    set (A := JS.sort byEfficiencyDesc (filter isScored rk)).
    set (B := JS.sort byFallbackDesc (filter isUnscored rk)).
    assert (HA : Forall (fun o => isScored o = true) A)
      by apply sorted_filter_all.
    assert (HB : Forall (fun o => isUnscored o = true) B)
      by apply sorted_filter_all.
    assert (HB' : Forall (fun o => isScored o = false) B).
    { apply Forall_impl with (2 := HB). intros o Ho.
      rewrite isUnscored_negb, negb_true_iff in Ho. exact Ho. }
    assert (HA' : Forall (fun o => isUnscored o = false) A).
    { apply Forall_impl with (2 := HA). intros o Ho.
      rewrite isUnscored_negb, Ho. reflexivity. }
    assert (Hperm : Permutation (A ++ B) rk).
    { apply Permutation_trans with (filter isScored rk ++ filter isUnscored rk).
      - apply Permutation_app; apply sort_perm.
      - apply filter_split_perm. apply isUnscored_negb. }
    assert (Hrk : filter isRankable (A ++ B) = A ++ B).
    { apply filter_all_true. apply Forall_forall. intros o Ho.
      apply (Permutation_in o Hperm) in Ho. apply filter_In in Ho. apply Ho. }
    rewrite Hrk.
    rewrite (existsb_perm hasScore _ _ Hperm), Hs.
    rewrite !filter_app.
    rewrite (filter_all_true isScored A HA), (filter_all_false isScored B HB').
    rewrite (filter_all_false isUnscored A HA'), (filter_all_true isUnscored B HB).
    rewrite app_nil_r. simpl app.
    unfold A at 1. rewrite (sort_twice _ _ byEfficiencyDesc_flip).
    unfold B at 1. rewrite (sort_twice _ _ byFallbackDesc_flip).
    reflexivity.
  - set (rk := filter isRankable options) in *.
    assert (Hperm : Permutation (JS.sort byFallbackDesc rk) rk) by apply sort_perm.
    assert (Hrk : filter isRankable (JS.sort byFallbackDesc rk) = JS.sort byFallbackDesc rk).
    { apply filter_all_true. apply Forall_forall. intros o Ho.
      apply (Permutation_in o Hperm) in Ho. apply filter_In in Ho. apply Ho. }
    rewrite Hrk, (existsb_perm hasScore _ _ Hperm), Hs.
    rewrite (sort_twice _ _ byFallbackDesc_flip). reflexivity.
Qed.

(** Ranking the contracts of a ranking again gives the same ranking: the
    filter, the split and the two sorts leave an already ranked list as it
    is, and every contract keeps its rank. *)
Theorem rank_twice (options : list AnalyzedOption) :
  rankByEfficiency (map contract (rankByEfficiency options)) = rankByEfficiency options.
Proof.
  rewrite !rankByEfficiency_rankSpec. apply rankSpec_fixed.
Qed.

(** ** Exact and degenerate expiration matches *)

Lemma Qabs_zero_iff (x : Q) : Qabs x <= 0 -> x == 0.
Proof.
  intro H. apply Qabs_Qle_condition in H. lra.
Qed.

(** When the target time (16:00 of the chosen date) is itself one of the
    available expirations, that expiration is the one returned, wherever
    it stands in the sequence. *)
Theorem findClosestExpiry_exact (Date_getTime : string -> option Z)
    (available : list Z) (targetDateStr : string) (t : Z) :
  In t available ->
  Date_getTime (targetDateStr ++ "T16:00:00")%string = Some (1000 * t)%Z ->
  findClosestExpiry Date_getTime available targetDateStr = Some t.
Proof.
  intros Hin Hparse. destruct available as [|a0 rest]; [contradiction|].
  unfold findClosestExpiry, targetOf. rewrite Hparse. simpl option_map.
  simpl fold_left. rewrite closerStep_same. f_equal.
  destruct (closer_fold_first_min (inject_Z (1000 * t) / 1000) a0 rest) as [i [_ Hall]].
  apply In_nth_error in Hin. destruct Hin as [j Hj].
  destruct (Hall j t Hj) as [Hle _].
  set (r := fold_left (closerStep (Some (inject_Z (1000 * t) / 1000))) rest a0) in *.
  unfold expiryDist in Hle.
  assert (Ht : inject_Z (1000 * t) / 1000 == inject_Z t).
  { rewrite inject_Z_mult. field. }
  rewrite Ht in Hle.
  assert (Hz : Qabs (inject_Z t - inject_Z t) == 0).
  { setoid_replace (inject_Z t - inject_Z t) with 0 by ring. reflexivity. }
  rewrite Hz in Hle. apply Qabs_zero_iff in Hle.
  assert (Heq : inject_Z r == inject_Z t) by lra.
  apply inject_Z_injective. exact Heq.
Qed.

Lemma findClosestExpiry_exact_witness :
  findClosestExpiry (fun _ => Some 1705698000000%Z)
                    [1705093200%Z; 1705698000%Z; 1706302800%Z] "2024-01-19"
  = Some 1705698000%Z.
Proof.
  apply (findClosestExpiry_exact (fun _ => Some 1705698000000%Z)
           [1705093200%Z; 1705698000%Z; 1706302800%Z] "2024-01-19" 1705698000).
  - right. left. reflexivity.
  - reflexivity.
Defined.

(** Without a usable target the matcher degenerates: it answers
    [undefined] exactly when no expiration is available, and for a date
    string that does not parse it returns the first available expiration,
    since every comparison with the invalid time fails. *)
Theorem findClosestExpiry_degenerate (Date_getTime : string -> option Z)
    (available : list Z) (targetDateStr : string) :
  (findClosestExpiry Date_getTime available targetDateStr = None <-> available = [])
  /\ (Date_getTime (targetDateStr ++ "T16:00:00")%string = None ->
      findClosestExpiry Date_getTime available targetDateStr = hd_error available).
Proof.
  split.
  - destruct available as [|a0 rest]; simpl; split; intro H;
      try reflexivity; discriminate.
  - intro Hnan. destruct available as [|a0 rest]; [reflexivity|].
    unfold findClosestExpiry, targetOf. rewrite Hnan. simpl option_map.
    rewrite closer_fold_nan. reflexivity.
Qed.

Lemma findClosestExpiry_degenerate_witness :
  findClosestExpiry (fun _ => None) [1706302800%Z; 1705093200%Z] "next friday"
  = hd_error [1706302800%Z; 1705093200%Z].
Proof.
  apply (findClosestExpiry_degenerate (fun _ => None)
           [1706302800%Z; 1705093200%Z] "next friday").
  reflexivity.
Defined.

(** ** The trace of a relay fetch *)

Section RelayTrace.

Variable encodeURIComponent : string -> string.
Variable JSON_parse : string -> option jsval.
Variable network : nat -> string -> response.
Variable url : string.
Variable label : string.

Local Abbreviation tryP := (tryProxy encodeURIComponent JSON_parse network url).
Local Abbreviation ploop := (proxyLoop encodeURIComponent JSON_parse network url).
Local Abbreviation aloop := (attemptLoop encodeURIComponent JSON_parse network url).
Local Abbreviation target := (proxyUrl encodeURIComponent url).

Lemma effects_app (l1 l2 : list event) : effects (l1 ++ l2) = effects l1 ++ effects l2.
Proof. apply filter_app. Qed.

(** One attempt: the state after it, and its result in terms of the
    response. *)
Lemma tryProxy_state (onStatus : bool) (attempt p : nat) (st : netState) :
  requests (snd (tryP onStatus label attempt p st)) = S (requests st)
  /\ effects (log (snd (tryP onStatus label attempt p st)))
     = effects (log st) ++ [Request (target attempt p)].
Proof.
  unfold tryProxy.
  set (st1 := if onStatus
              then record (Status (statusLine encodeURIComponent label attempt p)) st
              else st).
  assert (Hr : requests st1 = requests st) by (unfold st1; destruct onStatus; reflexivity).
  assert (He : effects (log st1) = effects (log st)).
  { unfold st1. destruct onStatus; [|reflexivity].
    simpl. rewrite effects_app. simpl. apply app_nil_r. }
  assert (Hst : forall res : attemptResult,
             requests (snd (res, {| requests := S (requests st1);
                                    log := log st1 ++ [Request (target attempt p)] |}))
             = S (requests st)
             /\ effects (log (snd (res, {| requests := S (requests st1);
                                           log := log st1 ++ [Request (target attempt p)] |})))
                = effects (log st) ++ [Request (target attempt p)]).
  { intro res. simpl. rewrite effects_app, He, Hr. split; reflexivity. }
  destruct (network (requests st1) (target attempt p)) as [m|ok text]; [apply Hst|].
  destruct (negb ok); [apply Hst|].
  destruct (_ || _); [apply Hst|].
  destruct (JSON_parse text); apply Hst.
Qed.

Lemma tryProxy_result (onStatus : bool) (attempt p : nat) (st : netState) :
  (exists data, fst (tryP onStatus label attempt p st) = Parsed data)
  \/ fst (tryP onStatus label attempt p st)
     = SoftFail (rejUpdate None (network (requests st) (target attempt p))).
Proof.
  unfold tryProxy.
  replace (requests (if onStatus
                     then record (Status (statusLine encodeURIComponent label attempt p)) st
                     else st)) with (requests st) by (destruct onStatus; reflexivity).
  destruct (network (requests st) (target attempt p)) as [m|ok text]; [right; reflexivity|].
  destruct (negb ok); [right; reflexivity|].
  destruct (_ || _); [right; reflexivity|].
  destruct (JSON_parse text) as [data|]; [left; exists data|right]; reflexivity.
Qed.

Lemma rejUpdate_none (lastErr : option string) (r : response) :
  match rejUpdate None r with Some m => Some m | None => lastErr end = rejUpdate lastErr r.
Proof. destruct r; reflexivity. Qed.

(** One round: the relays tried are the first [k] of the round, and a
    round that ends without data has tried them all and remembers the last
    rejection. *)
Lemma proxyLoop_trace (onStatus : bool) (attempt m : nat) :
  forall (p0 : nat) (lastErr : option string) (st : netState),
  exists k,
    (k <= m)%nat
    /\ requests (snd (ploop onStatus label attempt (seq p0 m) lastErr st))
       = (requests st + k)%nat
    /\ effects (log (snd (ploop onStatus label attempt (seq p0 m) lastErr st)))
       = effects (log st)
         ++ map (fun p => Request (target attempt p)) (firstn k (seq p0 m))
    /\ match fst (fst (ploop onStatus label attempt (seq p0 m) lastErr st)) with
       | Some _ => (1 <= k)%nat
       | None =>
           k = m
           /\ snd (fst (ploop onStatus label attempt (seq p0 m) lastErr st))
              = fold_left rejUpdate
                  (map (fun i => network (requests st + i) (target attempt (p0 + i)))
                       (seq 0 m))
                  lastErr
       end.
Proof.
  induction m as [|m IH]; intros p0 lastErr st.
  - exists 0%nat. simpl. rewrite Nat.add_0_r, app_nil_r. repeat split; reflexivity.
  - simpl seq. cbn [proxyLoop].
    destruct (tryProxy_state onStatus attempt p0 st) as [Hreq Heff].
    pose proof (tryProxy_result onStatus attempt p0 st) as Hres.
    destruct (tryP onStatus label attempt p0 st) as [res st1].
    simpl in Hreq, Heff, Hres.
    destruct Hres as [[data ->] | ->].
    + exists 1%nat. simpl. repeat split; try lia. exact Heff.
    + assert (Hnext : ploop onStatus label attempt (seq (S p0) m)
                        (rejUpdate lastErr (network (requests st) (target attempt p0))) st1
                      = match rejUpdate None (network (requests st) (target attempt p0)) with
                        | Some msg => ploop onStatus label attempt (seq (S p0) m) (Some msg) st1
                        | None => ploop onStatus label attempt (seq (S p0) m) lastErr st1
                        end).
      { destruct (network (requests st) (target attempt p0)); reflexivity. }
      rewrite <- Hnext.
      destruct (IH (S p0) (rejUpdate lastErr (network (requests st) (target attempt p0))) st1)
        as [k [Hk [Hr [He Hout]]]].
      exists (S k). split; [lia|]. split; [lia|]. split.
      * rewrite He, Heff, <- app_assoc. reflexivity.
      * destruct (fst (fst (ploop onStatus label attempt (seq (S p0) m)
                              (rejUpdate lastErr (network (requests st) (target attempt p0)))
                              st1))); [lia|].
        destruct Hout as [-> Hle]. split; [reflexivity|].
        rewrite Hle. simpl seq. simpl map. simpl fold_left.
        rewrite !Nat.add_0_r. f_equal.
        rewrite <- seq_shift, map_map. apply map_ext. intro i.
        rewrite Hreq. f_equal; [lia|]. f_equal. lia.
Qed.

Lemma requestCount_app (l1 l2 : list event) :
  requestCount (l1 ++ l2) = (requestCount l1 + requestCount l2)%nat.
Proof. unfold requestCount. rewrite filter_app, length_app. reflexivity. Qed.

Lemma requestCount_requests {A : Type} (f : A -> string) (l : list A) :
  requestCount (map (fun x => Request (f x)) l) = List.length l.
Proof.
  unfold requestCount. induction l as [|x l IH]; simpl; [reflexivity|].
  rewrite IH. reflexivity.
Qed.

Lemma requestCount_firstn (n : nat) (l : list event) :
  (requestCount (firstn n l) <= requestCount l)%nat.
Proof.
  rewrite <- (firstn_skipn n l) at 2. rewrite requestCount_app. lia.
Qed.

Lemma roundEvents_requests (maxAttempts attempt : nat) :
  requestCount (roundEvents encodeURIComponent url maxAttempts attempt) = 5%nat.
Proof.
  unfold roundEvents. rewrite requestCount_app, requestCount_requests.
  destruct (attempt <? maxAttempts - 1)%nat; reflexivity.
Qed.

Lemma schedule_requests (maxAttempts : nat) (attempts : list nat) :
  requestCount (flat_map (roundEvents encodeURIComponent url maxAttempts) attempts)
  = (5 * List.length attempts)%nat.
Proof.
  induction attempts as [|a rest IH]; [reflexivity|].
  cbn [flat_map]. rewrite requestCount_app, roundEvents_requests, IH. cbn [List.length]. lia.
Qed.

Lemma seq_plus5 (m s : nat) : map (fun i => (i + 5)%nat) (seq s m) = seq (s + 5) m.
Proof.
  revert s. induction m as [|m IH]; intro s; simpl; [reflexivity|].
  f_equal. apply (IH (S s)).
Qed.

(** The rounds of one call, from round [a0] on. *)
Lemma attemptLoop_trace (onStatus : bool) (maxAttempts n : nat) :
  forall (a0 : nat) (lastErr : option string) (st : netState),
  exists k,
    effects (log (snd (aloop onStatus label maxAttempts (seq a0 n) lastErr st)))
    = effects (log st)
      ++ firstn k (flat_map (roundEvents encodeURIComponent url maxAttempts) (seq a0 n))
    /\ requests (snd (aloop onStatus label maxAttempts (seq a0 n) lastErr st))
       = (requests st
          + requestCount
              (firstn k (flat_map (roundEvents encodeURIComponent url maxAttempts)
                                  (seq a0 n))))%nat
    /\ match fst (aloop onStatus label maxAttempts (seq a0 n) lastErr st) with
       | Returned _ =>
           (requests st
            < requests (snd (aloop onStatus label maxAttempts (seq a0 n) lastErr st)))%nat
       | Thrown msg =>
           k = List.length (flat_map (roundEvents encodeURIComponent url maxAttempts)
                                     (seq a0 n))
           /\ msg = (label ++ " failed: "
                     ++ lastMessage
                          (fold_left rejUpdate
                             (map (answerFrom encodeURIComponent network url a0 st)
                                  (seq 0 (n * 5)))
                             lastErr))%string
       end.
Proof.
  induction n as [|n IH]; intros a0 lastErr st.
  - exists 0%nat. simpl. rewrite app_nil_r, Nat.add_0_r. repeat split; reflexivity.
  - simpl seq. cbn [attemptLoop flat_map].
    change (List.length (proxyBuilders encodeURIComponent)) with 5%nat.
    destruct (proxyLoop_trace onStatus a0 5 0 lastErr st) as [k [Hk [Hr [He Hout]]]].
    destruct (ploop onStatus label a0 (seq 0 5) lastErr st) as [[res le] st1].
    cbn [fst snd] in Hr, He, Hout.
    set (reqs := map (fun p => Request (target a0 p)) (seq 0 5)).
    assert (Hlen : List.length reqs = 5%nat) by reflexivity.
    destruct res as [data|].
    + exists k. cbn [fst snd].
      assert (Hpre : firstn k (roundEvents encodeURIComponent url maxAttempts a0
                               ++ flat_map (roundEvents encodeURIComponent url maxAttempts)
                                           (seq (S a0) n))
                     = map (fun p => Request (target a0 p)) (firstn k (seq 0 5))).
      { unfold roundEvents. fold reqs. rewrite <- app_assoc, firstn_app.
        replace (k - List.length reqs)%nat with 0%nat by lia.
        simpl firstn at 2. rewrite app_nil_r. unfold reqs. apply firstn_map. }
      rewrite Hpre. split; [exact He|]. split.
      * rewrite requestCount_requests, length_firstn, length_seq, Hr. lia.
      * lia.
    + destruct Hout as [-> Hle].
      set (st2 := if (a0 <? maxAttempts - 1)%nat
                  then record (Sleep (1500 * (a0 + 1))) st1 else st1).
      assert (Hr2 : requests st2 = (requests st + 5)%nat).
      { unfold st2. destruct (a0 <? maxAttempts - 1)%nat; exact Hr. }
      assert (He2 : effects (log st2)
                    = effects (log st) ++ roundEvents encodeURIComponent url maxAttempts a0).
      { unfold st2, roundEvents. fold reqs.
        destruct (a0 <? maxAttempts - 1)%nat.
        - simpl log. rewrite effects_app, He. simpl. rewrite <- app_assoc. reflexivity.
        - rewrite He, app_nil_r. reflexivity. }
      destruct (IH (S a0) le st2) as [k' [He' [Hr' Hout']]].
      exists (List.length (roundEvents encodeURIComponent url maxAttempts a0) + k')%nat.
      rewrite firstn_app_2. split; [|split].
      * rewrite He', He2, <- app_assoc. reflexivity.
      * rewrite Hr', Hr2, requestCount_app, roundEvents_requests. lia.
      * destruct (fst (aloop onStatus label maxAttempts (seq (S a0) n) le st2)) as [d|msg].
        -- lia.
        -- destruct Hout' as [-> ->]. split; [rewrite length_app; reflexivity|].
           do 3 f_equal. rewrite Hle.
           change (0%nat :: 1%nat :: 2%nat :: 3%nat :: 4%nat :: seq 5 (n * 5))
             with (seq 0 5 ++ seq 5 (n * 5)).
           rewrite map_app, fold_left_app. f_equal.
           ++ change (seq 5 (n * 5)) with (seq (0 + 5) (n * 5)).
              rewrite <- (seq_plus5 (n * 5) 0), map_map. apply map_ext. intro i.
              apply (answerFrom_next encodeURIComponent network url a0 st st2 i Hr2).
           ++ f_equal. apply map_ext_in. intros i Hi. apply in_seq in Hi.
              symmetry. apply answerFrom_round. lia.
Qed.

End RelayTrace.

(** Whatever the relays answer, the requests and sleeps of a call are an
    initial part of one fixed schedule: round after round, the five relays
    of the round and then the back-off sleep, none after the last round.
    The call never makes more than 5 * maxAttempts requests; it fails only
    after the whole schedule, and a call that returns data made at least
    one request. *)
Theorem fetchWithProxies_follows_schedule
    (encodeURIComponent : string -> string) (JSON_parse : string -> option jsval)
    (network : nat -> string -> response) (url : string) (onStatus : bool)
    (label : string) (maxAttempts : nat) (st : netState) :
  exists k,
    effects (log (snd (fetchWithProxies encodeURIComponent JSON_parse network url
                         onStatus label maxAttempts st)))
    = effects (log st) ++ firstn k (eventSchedule encodeURIComponent url maxAttempts)
    /\ requests (snd (fetchWithProxies encodeURIComponent JSON_parse network url
                        onStatus label maxAttempts st))
       = (requests st
          + requestCount (firstn k (eventSchedule encodeURIComponent url maxAttempts)))%nat
    /\ (requests (snd (fetchWithProxies encodeURIComponent JSON_parse network url
                         onStatus label maxAttempts st))
        <= requests st + 5 * maxAttempts)%nat
    /\ match fst (fetchWithProxies encodeURIComponent JSON_parse network url
                    onStatus label maxAttempts st) with
       | Returned _ =>
           (requests st
            < requests (snd (fetchWithProxies encodeURIComponent JSON_parse network url
                               onStatus label maxAttempts st)))%nat
       | Thrown _ =>
           effects (log (snd (fetchWithProxies encodeURIComponent JSON_parse network url
                                onStatus label maxAttempts st)))
           = effects (log st) ++ eventSchedule encodeURIComponent url maxAttempts
           /\ requests (snd (fetchWithProxies encodeURIComponent JSON_parse network url
                               onStatus label maxAttempts st))
              = (requests st + 5 * maxAttempts)%nat
       end.
Proof.
  unfold fetchWithProxies, eventSchedule.
  destruct (attemptLoop_trace encodeURIComponent JSON_parse network url label onStatus
              maxAttempts maxAttempts 0 None st) as [k [He [Hr Hout]]].
  pose proof (requestCount_firstn k
                (flat_map (roundEvents encodeURIComponent url maxAttempts)
                          (seq 0 maxAttempts))) as Hle.
  rewrite schedule_requests, length_seq in Hle.
  exists k. split; [exact He|]. split; [exact Hr|]. split; [lia|].
  destruct (fst (attemptLoop encodeURIComponent JSON_parse network url onStatus label
                   maxAttempts (seq 0 maxAttempts) None st)) as [d|msg]; [exact Hout|].
  destruct Hout as [Hk _]. rewrite Hk, firstn_all in He, Hr.
  rewrite schedule_requests, length_seq in Hr. split; assumption.
Qed.



(** ** The rotation of the relays *)

(** In every round the five relays are each tried once, in cyclic order
    starting at relay [attempt mod 5]: round 0 starts at the first relay,
    round 1 at the second, and so on. *)
Theorem proxy_rotation (encodeURIComponent : string -> string) (url : string)
    (attempt : nat) :
  map (proxyUrl encodeURIComponent url attempt) (seq 0 5)
  = skipn (attempt mod 5) (map (fun build => build url) (proxyBuilders encodeURIComponent))
    ++ firstn (attempt mod 5)
              (map (fun build => build url) (proxyBuilders encodeURIComponent))
  /\ Permutation (map (proxyUrl encodeURIComponent url attempt) (seq 0 5))
                 (map (fun build => build url) (proxyBuilders encodeURIComponent)).
Proof.
  assert (Heq : map (proxyUrl encodeURIComponent url attempt) (seq 0 5)
                = skipn (attempt mod 5)
                        (map (fun build => build url) (proxyBuilders encodeURIComponent))
                  ++ firstn (attempt mod 5)
                            (map (fun build => build url)
                                 (proxyBuilders encodeURIComponent))).
  { assert (Hmap : map (proxyUrl encodeURIComponent url attempt) (seq 0 5)
                   = map (fun p => nth ((attempt mod 5 + p) mod 5)
                                       (proxyBuilders encodeURIComponent) (fun u => u) url)
                         (seq 0 5)).
    { apply map_ext. intro p. unfold proxyUrl.
      change (List.length (proxyBuilders encodeURIComponent)) with 5%nat.
      rewrite Nat.Div0.add_mod_idemp_l. reflexivity. }
    rewrite Hmap.
    pose proof (Nat.mod_upper_bound attempt 5) as Hlt.
    destruct (attempt mod 5)%nat as [|[|[|[|[|r]]]]]; try reflexivity.
    exfalso. assert (5 <> 0)%nat by discriminate. specialize (Hlt H). lia. }
  split; [exact Heq|].
  rewrite Heq. apply Permutation_trans with
    (firstn (attempt mod 5) (map (fun build => build url) (proxyBuilders encodeURIComponent))
     ++ skipn (attempt mod 5)
              (map (fun build => build url) (proxyBuilders encodeURIComponent))).
  - apply Permutation_app_comm.
  - rewrite firstn_skipn. apply Permutation_refl.
Qed.

(** ** The back-off *)

Lemma firstn_of_seq (j s n : nat) : firstn j (seq s n) = seq s (Nat.min j n).
Proof.
  revert s n. induction j as [|j IH]; intros s n; [reflexivity|].
  destruct n as [|n]; [reflexivity|]. simpl. f_equal. apply IH.
Qed.

Lemma filter_firstn {A : Type} (p : A -> bool) (k : nat) (l : list A) :
  exists j, filter p (firstn k l) = firstn j (filter p l).
Proof.
  revert l. induction k as [|k IH]; intro l.
  - exists 0%nat. reflexivity.
  - destruct l as [|x l]; [exists 0%nat; reflexivity|].
    destruct (IH l) as [j Hj]. simpl. destruct (p x).
    + exists (S j). simpl. rewrite Hj. reflexivity.
    + exists j. exact Hj.
Qed.

Lemma sleeps_of_effects (l : list event) : filter isSleep (effects l) = filter isSleep l.
Proof.
  unfold effects. induction l as [|e l IH]; [reflexivity|].
  destruct e; simpl; rewrite IH; reflexivity.
Qed.

Lemma round_sleeps (encodeURIComponent : string -> string) (url : string)
    (maxAttempts : nat) (attempts : list nat) :
  filter isSleep (flat_map (roundEvents encodeURIComponent url maxAttempts) attempts)
  = map (fun a => Sleep (1500 * (a + 1)))
        (filter (fun a => (a <? maxAttempts - 1)%nat) attempts).
Proof.
  induction attempts as [|a rest IH]; [reflexivity|].
  cbn [flat_map filter]. rewrite filter_app, IH. unfold roundEvents.
  rewrite filter_app.
  replace (filter isSleep
             (map (fun p => Request (proxyUrl encodeURIComponent url a p)) (seq 0 5)))
    with (@nil event) by reflexivity.
  destruct (a <? maxAttempts - 1)%nat; reflexivity.
Qed.

Lemma rounds_before_last (maxAttempts : nat) :
  filter (fun a => (a <? maxAttempts - 1)%nat) (seq 0 maxAttempts) = seq 0 (maxAttempts - 1).
Proof.
  destruct maxAttempts as [|m]; [reflexivity|].
  replace (S m - 1)%nat with m by lia.
  rewrite seq_S, filter_app. simpl.
  rewrite Nat.ltb_irrefl, app_nil_r.
  apply filter_all_true. apply Forall_forall. intros a Ha.
  apply in_seq in Ha. apply Nat.ltb_lt. lia.
Qed.

(** The back-off: the sleeps of a call are 1500 ms, 3000 ms, ... in this
    order, one after each completed round except the last; a call that
    fails has slept after every round but the last, maxAttempts - 1 times
    in all. *)
Theorem fetchWithProxies_backoff
    (encodeURIComponent : string -> string) (JSON_parse : string -> option jsval)
    (network : nat -> string -> response) (url : string) (onStatus : bool)
    (label : string) (maxAttempts : nat) (st : netState) :
  exists j,
    (j <= maxAttempts - 1)%nat
    /\ filter isSleep (log (snd (fetchWithProxies encodeURIComponent JSON_parse network url
                                   onStatus label maxAttempts st)))
       = filter isSleep (log st) ++ map (fun a => Sleep (1500 * (a + 1))) (seq 0 j)
    /\ match fst (fetchWithProxies encodeURIComponent JSON_parse network url
                    onStatus label maxAttempts st) with
       | Returned _ => True
       | Thrown _ => j = (maxAttempts - 1)%nat
       end.
Proof.
  unfold fetchWithProxies.
  destruct (attemptLoop_trace encodeURIComponent JSON_parse network url label onStatus
              maxAttempts maxAttempts 0 None st) as [k [He [_ Hout]]].
  set (schedule := flat_map (roundEvents encodeURIComponent url maxAttempts)
                            (seq 0 maxAttempts)) in *.
  assert (Hsl : filter isSleep schedule
                = map (fun a => Sleep (1500 * (a + 1))) (seq 0 (maxAttempts - 1))).
  { unfold schedule. rewrite round_sleeps, rounds_before_last. reflexivity. }
  destruct (filter_firstn isSleep k schedule) as [j Hj].
  exists (Nat.min j (maxAttempts - 1)). split; [lia|]. split.
  - rewrite <- sleeps_of_effects, He, filter_app, sleeps_of_effects, Hj, Hsl.
    rewrite firstn_map, firstn_of_seq. reflexivity.
  - destruct (fst (attemptLoop encodeURIComponent JSON_parse network url onStatus label
                     maxAttempts (seq 0 maxAttempts) None st)) as [d|msg]; [exact I|].
    destruct Hout as [Hk _].
    assert (Hall : filter isSleep (firstn k schedule) = filter isSleep schedule).
    { rewrite Hk, firstn_all. reflexivity. }
    rewrite Hj, Hsl in Hall.
    apply (f_equal (@List.length event)) in Hall.
    rewrite length_firstn, !length_map, length_seq in Hall. lia.
Qed.

(** ** The market data client on top of the relay fetch *)

Lemma or_truthy (a b : jsval) : JS.truthy b = true -> JS.truthy (JS.or a b) = true.
Proof.
  intro Hb. unfold JS.or. destruct (JS.truthy a) eqn:Ha; assumption.
Qed.

Lemma or_cases (a b : jsval) :
  (JS.truthy a = true -> JS.or a b = a) /\ (JS.truthy a = false -> JS.or a b = b).
Proof.
  unfold JS.or. split; intros ->; reflexivity.
Qed.

Lemma fetchOptionChain_data
    (encodeURIComponent : string -> string) (JSON_parse : string -> option jsval)
    (network : nat -> string -> response)
    (ticker : string) (expiryTimestamp : option Z) (onStatus : bool) (st : netState) :
  match fst (fetchWithProxies encodeURIComponent JSON_parse network
               (chainUrl encodeURIComponent ticker expiryTimestamp) onStatus
               ("Fetching " ++ ticker ++ " options chain")%string 3 st) with
  | Returned data =>
      fst (fetchOptionChain encodeURIComponent JSON_parse network ticker expiryTimestamp
                            onStatus st) = chainOfData ticker data
  | Thrown m =>
      fst (fetchOptionChain encodeURIComponent JSON_parse network ticker expiryTimestamp
                            onStatus st) = Thrown m
  end
  /\ snd (fetchOptionChain encodeURIComponent JSON_parse network ticker expiryTimestamp
                           onStatus st)
     = snd (fetchWithProxies encodeURIComponent JSON_parse network
              (chainUrl encodeURIComponent ticker expiryTimestamp) onStatus
              ("Fetching " ++ ticker ++ " options chain")%string 3 st).
Proof.
  unfold fetchOptionChain.
  destruct (fetchWithProxies encodeURIComponent JSON_parse network
              (chainUrl encodeURIComponent ticker expiryTimestamp) onStatus
              ("Fetching " ++ ticker ++ " options chain")%string 3 st) as [[data|m] st'];
    split; reflexivity.
Qed.

(** A chain that [fetchOptionChain] returns never has a null or undefined
    field: the expiration dates, calls and puts of the feed are kept when
    they are there and replaced by an empty array when they are missing,
    and a missing quote by an empty object. *)
Theorem fetchOptionChain_fields_present
    (encodeURIComponent : string -> string) (JSON_parse : string -> option jsval)
    (network : nat -> string -> response)
    (ticker : string) (expiryTimestamp : option Z) (onStatus : bool) (st : netState)
    (chain : OptionChain) :
  fst (fetchOptionChain encodeURIComponent JSON_parse network ticker expiryTimestamp
                        onStatus st) = Returned chain ->
  JS.truthy (expirationDates chain) = true
  /\ JS.truthy (calls chain) = true
  /\ JS.truthy (puts chain) = true
  /\ JS.truthy (quote chain) = true
  /\ exists data,
       fst (fetchWithProxies encodeURIComponent JSON_parse network
              (chainUrl encodeURIComponent ticker expiryTimestamp) onStatus
              ("Fetching " ++ ticker ++ " options chain")%string 3 st) = Returned data
       /\ JS.truthy (chainResult data) = true
       /\ (JS.truthy (JS.get "expirationDates" (chainResult data)) = true ->
           expirationDates chain = JS.get "expirationDates" (chainResult data))
       /\ (JS.truthy (JS.get "expirationDates" (chainResult data)) = false ->
           expirationDates chain = JArr [])
       /\ (JS.truthy (JS.get "calls" (JS.first (JS.get "options" (chainResult data)))) = true ->
           calls chain = JS.get "calls" (JS.first (JS.get "options" (chainResult data))))
       /\ (JS.truthy (JS.get "calls" (JS.first (JS.get "options" (chainResult data)))) = false ->
           calls chain = JArr []).
Proof.
  intro H.
  destruct (fetchOptionChain_data encodeURIComponent JSON_parse network ticker
              expiryTimestamp onStatus st) as [Hfst _].
  destruct (fst (fetchWithProxies encodeURIComponent JSON_parse network
                   (chainUrl encodeURIComponent ticker expiryTimestamp) onStatus
                   ("Fetching " ++ ticker ++ " options chain")%string 3 st)) as [data|m];
    rewrite Hfst in H; [|discriminate].
  unfold chainOfData in H.
  destruct (JS.truthy (chainResult data)) eqn:Hoc; simpl negb in H; cbv iota in H;
    [|discriminate].
  injection H as <-. cbn [expirationDates calls puts quote].
  split; [apply or_truthy; reflexivity|].
  split; [apply or_truthy; reflexivity|].
  split; [apply or_truthy; reflexivity|].
  split; [apply or_truthy; reflexivity|].
  exists data. split; [reflexivity|]. split; [exact Hoc|].
  repeat split; apply or_cases.
Qed.

Lemma fetchOptionChain_fields_present_witness :
  JS.truthy (puts {| expirationDates := JArr [];
                     calls := JArr [JObj [("strike"%string, JNum 100)]];
                     puts := JArr []; quote := JObj [] |}) = true.
Proof.
  apply (fetchOptionChain_fields_present (fun u => u) (fun _ => Some sparseChain)
           (fun _ _ => Answered true sampleBody) "AAPL" None false
           {| requests := 0; log := [] |}).
  vm_compute. reflexivity.
Defined.

Lemma fetchSpotPrice_data
    (encodeURIComponent : string -> string) (JSON_parse : string -> option jsval)
    (network : nat -> string -> response)
    (ticker : string) (onStatus : bool) (nowMs : Z) (st : netState) :
  match fst (fetchWithProxies encodeURIComponent JSON_parse network
               (spotUrl encodeURIComponent ticker nowMs) onStatus
               ("Fetching " ++ ticker ++ " spot price")%string 3 st) with
  | Returned data =>
      fst (fetchSpotPrice encodeURIComponent JSON_parse network ticker onStatus nowMs st)
      = spotOfData ticker data
  | Thrown m =>
      fst (fetchSpotPrice encodeURIComponent JSON_parse network ticker onStatus nowMs st)
      = Thrown m
  end
  /\ snd (fetchSpotPrice encodeURIComponent JSON_parse network ticker onStatus nowMs st)
     = snd (fetchWithProxies encodeURIComponent JSON_parse network
              (spotUrl encodeURIComponent ticker nowMs) onStatus
              ("Fetching " ++ ticker ++ " spot price")%string 3 st).
Proof.
  unfold fetchSpotPrice.
  destruct (fetchWithProxies encodeURIComponent JSON_parse network
              (spotUrl encodeURIComponent ticker nowMs) onStatus
              ("Fetching " ++ ticker ++ " spot price")%string 3 st) as [[data|m] st'];
    split; reflexivity.
Qed.

(** Fetching the spot price costs at most 15 requests.  When all 15
    soft-fail, it fails after exactly 15 requests with a message that
    starts with its label "Fetching <ticker> spot price" followed by
    " failed: "; when the relay
    fetch returns data without a chart result, it fails with "No data
    returned for <ticker>". *)
Theorem fetchSpotPrice_failures
    (encodeURIComponent : string -> string) (JSON_parse : string -> option jsval)
    (network : nat -> string -> response)
    (ticker : string) (onStatus : bool) (nowMs : Z) (st : netState) :
  (requests (snd (fetchSpotPrice encodeURIComponent JSON_parse network ticker onStatus
                                 nowMs st))
   <= requests st + 15)%nat
  /\ ((forall i, (i < 15)%nat ->
         softFail JSON_parse
                  (answerAt encodeURIComponent network
                            (spotUrl encodeURIComponent ticker nowMs) st i)) ->
      exists m,
        fst (fetchSpotPrice encodeURIComponent JSON_parse network ticker onStatus nowMs st)
        = Thrown (("Fetching " ++ ticker ++ " spot price") ++ " failed: " ++ m)%string
        /\ requests (snd (fetchSpotPrice encodeURIComponent JSON_parse network ticker
                                         onStatus nowMs st))
           = (requests st + 15)%nat)
  /\ (forall data,
        fst (fetchWithProxies encodeURIComponent JSON_parse network
               (spotUrl encodeURIComponent ticker nowMs) onStatus
               ("Fetching " ++ ticker ++ " spot price")%string 3 st) = Returned data ->
        JS.truthy (chartResult data) = false ->
        fst (fetchSpotPrice encodeURIComponent JSON_parse network ticker onStatus nowMs st)
        = Thrown ("No data returned for " ++ ticker)%string).
Proof.
  destruct (fetchSpotPrice_data encodeURIComponent JSON_parse network ticker onStatus
              nowMs st) as [Hfst Hsnd].
  rewrite Hsnd. unfold fetchWithProxies in *.
  destruct (attemptLoop_trace encodeURIComponent JSON_parse network
              (spotUrl encodeURIComponent ticker nowMs)
              ("Fetching " ++ ticker ++ " spot price")%string onStatus 3 3 0 None st)
    as [k [_ [Hr Hout]]].
  pose proof (requestCount_firstn k
                (flat_map (roundEvents encodeURIComponent
                             (spotUrl encodeURIComponent ticker nowMs) 3) (seq 0 3))) as Hle.
  rewrite schedule_requests, length_seq in Hle.
  split; [lia|]. split.
  - intro Hfail.
    destruct (attemptLoop_all_fail encodeURIComponent JSON_parse network
                (spotUrl encodeURIComponent ticker nowMs) onStatus
                ("Fetching " ++ ticker ++ " spot price")%string 3 3 0 None st Hfail)
      as [m [st' Heq]].
    rewrite Heq in Hfst, Hout, Hr. cbn [fst snd] in Hfst, Hout, Hr.
    exists m. split.
    + exact Hfst.
    + rewrite Heq. cbn [snd]. destruct Hout as [Hk _].
      rewrite Hk, firstn_all, schedule_requests, length_seq in Hr. lia.
  - intros data Hdata Hres. rewrite Hdata in Hfst. rewrite Hfst.
    unfold spotOfData. rewrite Hres. reflexivity.
Qed.

Lemma fetchSpotPrice_failures_witness :
  exists m,
    fst (fetchSpotPrice (fun u => u) (fun text => Some (JStr text))
           (fun _ _ => Rejected "network down") "AAPL" false 1700000000000
           {| requests := 0; log := [] |})
    = Thrown (("Fetching " ++ "AAPL" ++ " spot price") ++ " failed: " ++ m)%string
    /\ requests (snd (fetchSpotPrice (fun u => u) (fun text => Some (JStr text))
                        (fun _ _ => Rejected "network down") "AAPL" false 1700000000000
                        {| requests := 0; log := [] |}))
       = (requests {| requests := 0; log := [] |} + 15)%nat.
Proof.
  apply (fetchSpotPrice_failures (fun u => u) (fun text => Some (JStr text))
           (fun _ _ => Rejected "network down") "AAPL" false 1700000000000
           {| requests := 0; log := [] |}).
  intros i Hi. apply soft_transport.
Defined.

(** ** The selectable Fridays *)

Lemma fridayDiff_spec (day : Z) :
  (1 <= fridayDiff day <= 7)%Z /\ getDay (day + fridayDiff day) = 5%Z.
Proof.
  unfold fridayDiff, getDay.
  destruct (Z.eqb_spec ((5 - (day + 4) mod 7 + 7) mod 7) 0) as [E|E].
  - split; [lia|]. revert E. Z.div_mod_to_equations. lia.
  - split; Z.div_mod_to_equations; lia.
Qed.

Lemma getDay_week (d k : Z) : getDay (d + 7 * k) = getDay d.
Proof.
  unfold getDay. replace (d + 7 * k + 4)%Z with (d + 4 + k * 7)%Z by lia.
  apply Z.mod_add. discriminate.
Qed.

Lemma pushFridays_nth (count : nat) :
  forall (d : Z) (i : nat) (f : Z),
    nth_error (pushFridays count d) i = Some f -> f = (d + 7 * Z.of_nat i)%Z.
Proof.
  induction count as [|count IH]; intros d i f H; [destruct i; discriminate|].
  destruct i as [|i]; simpl in H.
  - injection H as <-. lia.
  - apply IH in H. lia.
Qed.

Lemma pushFridays_length (count : nat) (d : Z) : List.length (pushFridays count d) = count.
Proof.
  revert d. induction count as [|count IH]; intro d; simpl; [reflexivity|].
  rewrite IH. reflexivity.
Qed.

(** [getNextFridays] returns exactly [count] days; each is a Friday
    strictly after today, the first at most 7 days ahead -- a week ahead
    when today is itself a Friday -- and each next one 7 days later. *)
Theorem getNextFridays_are_fridays (count : nat) (today : Z) :
  List.length (getNextFridays count today) = count
  /\ Forall (fun f => getDay f = 5%Z /\ (today < f)%Z) (getNextFridays count today)
  /\ (forall i f, nth_error (getNextFridays count today) i = Some f ->
        f = (today + fridayDiff today + 7 * Z.of_nat i)%Z)
  /\ (1 <= fridayDiff today <= 7)%Z
  /\ (getDay today = 5%Z -> fridayDiff today = 7%Z).
Proof.
  destruct (fridayDiff_spec today) as [Hrange Hfri].
  assert (Hnth : forall i f, nth_error (getNextFridays count today) i = Some f ->
                   f = (today + fridayDiff today + 7 * Z.of_nat i)%Z).
  { intros i f H. apply (pushFridays_nth count _ i f H). }
  split; [apply pushFridays_length|]. split; [|split; [exact Hnth|split; [exact Hrange|]]].
  - apply Forall_forall. intros f Hf. apply In_nth_error in Hf. destruct Hf as [i Hi].
    apply Hnth in Hi. subst f. split; [|lia].
    rewrite getDay_week. exact Hfri.
  - unfold fridayDiff. intros ->. reflexivity.
Qed.

(** ** The delta-versus-extrinsic plot *)

Lemma analyzeOne_score (spotPrice : Q) (dte : Z) (increment : Q) (c : RawOptionContract) :
  Opt.efficiencyScore (analyzeOne spotPrice dte increment c)
  = match JS.numberOrNull (Raw.delta c) with
    | Some d =>
        if JS.Qltb (1 # 100) (Qabs d)
        then Some (Opt.extrinsicPerDTE (analyzeOne spotPrice dte increment c) / Qabs d)
        else None
    | None => None
    end.
Proof.
  unfold analyzeOne. cbn [Opt.efficiencyScore Opt.extrinsicPerDTE].
  destruct (JS.numberOrNull (Raw.delta c)); reflexivity.
Qed.

Lemma analyzeOne_delta (spotPrice : Q) (dte : Z) (increment : Q) (c : RawOptionContract) :
  Opt.delta (analyzeOne spotPrice dte increment c) = JS.numberOrNull (Raw.delta c).
Proof. reflexivity. Qed.

(** Before an analysis has run the plot is empty.  After one, every point
    belongs to an analyzed contract, has 0.01 < |delta| < 0.99, and that
    contract has an efficiency score: the plotted extrinsic value per day
    divided by the plotted delta. *)
Theorem deltaVsExtrinsic_points (calls : list RawOptionContract) (spotPrice : Q)
    (expiryTs numStrikes nowMs : Z) :
  deltaVsExtrinsic None = []
  /\ Forall (fun pt =>
               1 # 100 < pointDelta pt /\ pointDelta pt < 99 # 100
               /\ exists o,
                    In o (analyzeCallOptions calls spotPrice expiryTs numStrikes nowMs)
                    /\ pointStrike pt = Opt.strike o
                    /\ pointMoneyness pt = Opt.moneyness o
                    /\ pointExtrinsicPerDTE pt = Opt.extrinsicPerDTE o
                    /\ Opt.efficiencyScore o
                       = Some (pointExtrinsicPerDTE pt / pointDelta pt))
            (deltaVsExtrinsic
               (Some (analyzeCallOptions calls spotPrice expiryTs numStrikes nowMs))).
Proof.
  split; [reflexivity|].
  apply Forall_forall. intros pt Hpt. unfold deltaVsExtrinsic in Hpt.
  apply in_map_iff in Hpt. destruct Hpt as [o [<- Ho]].
  apply filter_In in Ho. destruct Ho as [Ho Hplot].
  cbn [pointDelta pointExtrinsicPerDTE pointStrike pointMoneyness].
  unfold plottable in Hplot.
  destruct (Opt.delta o) as [d|] eqn:Hd; [|discriminate].
  apply andb_true_iff in Hplot. destruct Hplot as [Hlo Hhi].
  apply Qltb_lt in Hlo. apply Qltb_lt in Hhi. cbn [JS.toNumber].
  split; [exact Hlo|]. split; [exact Hhi|].
  exists o. destruct (analyze_from_calls _ _ _ _ _ _ Ho) as [c [_ Heq]].
  split; [exact Ho|]. split; [reflexivity|]. split; [reflexivity|].
  split; [reflexivity|].
  rewrite Heq in Hd |- *. rewrite analyzeOne_delta in Hd.
  rewrite analyzeOne_score, Hd.
  replace (JS.Qltb (1 # 100) (Qabs d)) with true
    by (symmetry; apply Qltb_lt; exact Hlo).
  reflexivity.
Qed.

(** ** Instances *)

Lemma nStrikes_clamped_witness : nStrikes (Some 7%Z) = 7%Z.
Proof.
  apply (nStrikes_clamped (Some 7%Z) [] 100 1700000000 1700000000000).
  - reflexivity.
  - lia.
Defined.

(** Day 19741 (19 January 2024) is a Friday: the next Friday offered is a
    week later. *)
Lemma getNextFridays_are_fridays_witness : fridayDiff 19741 = 7%Z.
Proof.
  apply (getNextFridays_are_fridays 12 19741).
  reflexivity.
Defined.

Lemma rank_order_witness :
  Nat.lt (rank {| contract := analyzedWith 100 2 (Some 4) (2 # 7); rank := 1 |})
         (rank {| contract := analyzedWith 105 3 None (3 # 7); rank := 2 |}).
Proof.
  apply (rank_order [analyzedWith 105 3 None (3 # 7); analyzedWith 100 2 (Some 4) (2 # 7)]).
  - vm_compute. left. reflexivity.
  - vm_compute. right. left. reflexivity.
  - reflexivity.
  - reflexivity.
Defined.
